(** * LCD preview: hardware shims, module bridge and change watcher

    A shallow embedding of [lcd_preview/stubs_gpio.py],
    [lcd_preview/watcher.py] and [lcd_preview/menulcd_bridge.py], with the
    properties of the specification stated over it.

    Conventions.  Python dictionaries keyed by channel are [gmap Z _];
    Python exceptions are values of [exn] and a raising computation returns
    [inl e]; mutable module or object state is threaded explicitly.  Only
    subclasses of [Exception] are modelled (the source catches [Exception]
    everywhere, so [KeyboardInterrupt] and [SystemExit] are out of scope). *)

From stdpp Require Import base numbers option list strings pretty gmap.

Local Open Scope Z_scope.

(** ** Exceptions *)

(** [str(e)] is the carried message. *)
Inductive exn : Type :=
| BridgeError (msg : string)
| TypeError (msg : string)
| OtherError (msg : string).

Definition str (e : exn) : string :=
  match e with
  | BridgeError m | TypeError m | OtherError m => m
  end.

Definition is_TypeError (e : exn) : bool :=
  match e with TypeError _ => true | _ => false end.

(** ** stubs_gpio.py *)

Module GPIO.

Definition BCM : Z := 11.
Definition BOARD : Z := 10.
Definition IN : Z := 0.
Definition OUT : Z := 1.
Definition PUD_UP : Z := 2.
Definition PUD_DOWN : Z := 3.
Definition PUD_OFF : Z := 4.
Definition RISING : Z := 5.
Definition FALLING : Z := 6.
Definition BOTH : Z := 7.
Definition HIGH : Z := 1.
Definition LOW : Z := 0.

Section Callbacks.
(** Whatever the registered callbacks act on. *)
Context {W : Type}.

(** A registered Python callable.  [truth] is its truth value, which
    [simulate_edge] tests ([True] for every function; an object with
    [__bool__] or [__len__] may say otherwise).  [takes_channel] says
    that the call [cb(channel)] binds, [takes_nothing] that [cb()] binds
    (a function with one optional parameter has both); [mismatch] is the
    message of the [TypeError] that a call which does not bind raises.
    [body] is the function body: it receives the argument, if any, and
    either returns ([None]) or raises. *)
Record callback : Type := Callback {
  truth : bool;
  takes_channel : bool;
  takes_nothing : bool;
  mismatch : option Z -> string;
  body : option Z -> W -> option exn * W
}.

(** The module-level state. *)
Record state : Type := State {
  _callbacks : gmap Z callback;
  _channel_edges : gmap Z Z;
  _mode : Z;
  _warnings : bool;
  _pin_state : gmap Z Z;
  _pin_dir : gmap Z Z
}.

Definition initial : state :=
  {| _callbacks := ∅; _channel_edges := ∅; _mode := BCM;
     _warnings := false; _pin_state := ∅; _pin_dir := ∅ |}.

Definition setmode (mode : Z) (s : state) : state :=
  {| _callbacks := _callbacks s; _channel_edges := _channel_edges s;
     _mode := mode; _warnings := _warnings s;
     _pin_state := _pin_state s; _pin_dir := _pin_dir s |}.

Definition getmode (s : state) : Z := _mode s.

Definition setwarnings (flag : bool) (s : state) : state :=
  {| _callbacks := _callbacks s; _channel_edges := _channel_edges s;
     _mode := _mode s; _warnings := flag;
     _pin_state := _pin_state s; _pin_dir := _pin_dir s |}.

(** [pull_up_down] is accepted and ignored, as in the source. *)
Definition setup (channel mode : Z) (pull_up_down initial : option Z)
    (s : state) : state :=
  {| _callbacks := _callbacks s; _channel_edges := _channel_edges s;
     _mode := _mode s; _warnings := _warnings s;
     _pin_state :=
       match initial with
       | Some v => <[channel := v]> (_pin_state s)
       | None => _pin_state s
       end;
     _pin_dir := <[channel := mode]> (_pin_dir s) |}.

(** [_pin_state.get(channel, LOW)] *)
Definition input (channel : Z) (s : state) : Z :=
  default LOW (_pin_state s !! channel).

(** Truth value of a Python integer. *)
Definition truthy (v : Z) : bool := negb (v =? 0).

Definition output (channel value : Z) (s : state) : state :=
  {| _callbacks := _callbacks s; _channel_edges := _channel_edges s;
     _mode := _mode s; _warnings := _warnings s;
     _pin_state := <[channel := if truthy value then HIGH else LOW]> (_pin_state s);
     _pin_dir := _pin_dir s |}.

(** [bouncetime] is accepted and ignored. *)
Definition add_event_detect (channel edge : Z) (cb : callback)
    (bouncetime : option Z) (s : state) : state :=
  {| _callbacks := <[channel := cb]> (_callbacks s);
     _channel_edges := <[channel := edge]> (_channel_edges s);
     _mode := _mode s; _warnings := _warnings s;
     _pin_state := _pin_state s; _pin_dir := _pin_dir s |}.

Definition remove_event_detect (channel : Z) (s : state) : state :=
  {| _callbacks := delete channel (_callbacks s);
     _channel_edges := delete channel (_channel_edges s);
     _mode := _mode s; _warnings := _warnings s;
     _pin_state := _pin_state s; _pin_dir := _pin_dir s |}.

Definition cleanup (channel : option Z) (s : state) : state :=
  match channel with
  | None =>
      {| _callbacks := ∅; _channel_edges := ∅; _mode := _mode s;
         _warnings := _warnings s; _pin_state := ∅; _pin_dir := ∅ |}
  | Some c =>
      {| _callbacks := delete c (_callbacks s);
         _channel_edges := delete c (_channel_edges s);
         _mode := _mode s; _warnings := _warnings s;
         _pin_state := delete c (_pin_state s);
         _pin_dir := delete c (_pin_dir s) |}
  end.

(** [list(_callbacks.keys())].  A Python dictionary lists its keys in
    insertion order, which the map does not record: the list here has
    the same elements, without repetition, in the order of the map. *)
Definition registered_channels (s : state) : list Z :=
  (map_to_list (_callbacks s)).*1.

(** The result of calling a Python function: what was raised, if
    anything, the world afterwards, and the executions of the body that
    took place (one entry per execution, holding its argument). *)
Definition call_result : Type := option exn * W * list (option Z).

(** A call whose arguments do not fit the signature raises [TypeError]
    before the body starts. *)
Definition call_callback (cb : callback) (arg : option Z) (w : W) : call_result :=
  let binds := match arg with
               | Some _ => takes_channel cb
               | None => takes_nothing cb
               end in
  if binds then
    let '(r, w') := body cb arg w in (r, w', [arg])
  else (Some (TypeError (mismatch cb arg)), w, []).

(** [simulate_edge]: for a registered callback that is true,
    [cb(channel)], and [cb()] when that raised a [TypeError]. *)
Definition simulate_edge (channel : Z) (s : state) (w : W) : call_result :=
  match _callbacks s !! channel with
  | None => (None, w, [])
  | Some cb =>
      if truth cb then
        let '(r, w1, t1) := call_callback cb (Some channel) w in
        match r with
        | Some (TypeError _) =>
            let '(r2, w2, t2) := call_callback cb None w1 in
            (r2, w2, t1 ++ t2)
        | _ => (r, w1, t1)
        end
      else (None, w, [])
  end.

(** The four operations of the pin-level invariant. *)
Inductive pin_op : Type :=
| Setup (channel mode : Z) (pull_up_down initial : option Z)
| Write (channel value : Z)
| Read (channel : Z)
| Cleanup (channel : option Z).

Definition run_op (o : pin_op) (s : state) : state :=
  match o with
  | Setup c m p i => setup c m p i s
  | Write c v => output c v s
  | Read _ => s
  | Cleanup c => cleanup c s
  end.

Definition run_ops (os : list pin_op) (s : state) : state :=
  foldl (fun s o => run_op o s) s os.

(** A [setup] whose initial level, when given, is one of the two levels. *)
Definition level_setup (o : pin_op) : Prop :=
  match o with
  | Setup _ _ _ (Some v) => v = HIGH \/ v = LOW
  | _ => True
  end.

(** Every stored level is one of the two levels. *)
Definition levels_only (s : state) : Prop :=
  ∀ c v, _pin_state s !! c = Some v → v = HIGH ∨ v = LOW.

End Callbacks.
Arguments callback : clear implicits.
Arguments state : clear implicits.
Arguments call_result : clear implicits.

End GPIO.

(** ** watcher.py *)

(** [RepoWatcher._debounce_loop] runs on its own thread and reads the wall
    clock; the notification source appends to [_changed] from another
    thread, and the two share the buffer without a lock.  The loop is
    modelled against an explicit schedule: one [tick] per iteration,
    carrying the clock value read by that iteration and the events that
    [_on_event] appended around it.  Clock values are in milliseconds. *)

Module RepoWatcher.

(** A change event: arrival time and path. *)
Record event : Type := Event { at_ms : Z; path : string }.

(** [arrived] are the events appended since the previous iteration and
    before this one reads the buffer.  [raced] are the events appended
    while this iteration is past that point: when the iteration flushes,
    between the copy of the buffer (line 78) and [clear()] (line 79). *)
Record tick : Type := Tick {
  now : Z;
  arrived : list event;
  raced : list event
}.

(** The test [(now - last_flush) >= self.debounce] compares floats: clock
    values in seconds and [debounce_ms / 1000.0].  It agrees with the
    comparison of the millisecond counts whenever these differ; when the
    elapsed time is exactly the debounce interval its outcome depends on
    the rounding of the operands ([0.3 - 0.1 >= 0.2] is false).  The test
    is therefore a parameter of the loop, fixed away from the boundary. *)
Class Elapsed : Type := {
  elapsed_ge : Z -> Z -> Z -> bool;   (* now, last_flush, debounce *)
  elapsed_early : ∀ now last debounce,
    now - last < debounce → elapsed_ge now last debounce = false;
  elapsed_late : ∀ now last debounce,
    debounce < now - last → elapsed_ge now last debounce = true
}.

(** The test computed without rounding. *)
Definition exact : Elapsed :=
  {| elapsed_ge now last debounce := bool_decide (debounce ≤ now - last);
     elapsed_early now last debounce H :=
       bool_decide_eq_false_2 _ (proj1 (Z.lt_nge _ _) H);
     elapsed_late now last debounce H :=
       bool_decide_eq_true_2 _ (Z.lt_le_incl _ _ H) |}.

(** What the loop holds between iterations: the shared buffer, its local
    [last_flush], and the payloads handed to [on_change] so far.  The
    payload [list({c for c in self._changed})] is a list without duplicates
    in an order the source does not fix; it is modelled as the set.
    [lost] is not in the source: it keeps the paths that [clear()] removed
    from the buffer without their having been copied. *)
Record loop_state : Type := LoopState {
  _changed : list string;
  last_flush : Z;
  delivered : list (gset string);
  lost : list string
}.

(** [_on_event] *)
Definition _on_event (p : string) (s : loop_state) : loop_state :=
  {| _changed := _changed s ++ [p]; last_flush := last_flush s;
     delivered := delivered s; lost := lost s |}.

Definition append_all (es : list event) (s : loop_state) : loop_state :=
  foldl (fun s e => _on_event (path e) s) s es.

(** One iteration of the [while] body, after the sleep.  When it does not
    flush, the events of [raced] are simply in the buffer afterwards. *)
Definition iteration {E : Elapsed} (debounce : Z) (s : loop_state) (t : tick)
    : loop_state :=
  let s1 := append_all (arrived t) s in
  if bool_decide (_changed s1 ≠ [])
     && elapsed_ge (now t) (last_flush s1) debounce
  then {| _changed := []; last_flush := now t;
          delivered := delivered s1 ++ [list_to_set (_changed s1)];
          lost := lost s1 ++ (path <$> raced t) |}
  else append_all (raced t) s1.

(** [start] clears the buffer; the loop reads the clock once before its
    first iteration. *)
Definition started (t0 : Z) : loop_state :=
  {| _changed := []; last_flush := t0; delivered := []; lost := [] |}.

Definition _debounce_loop {E : Elapsed} (debounce : Z) (s : loop_state)
    (ticks : list tick) : loop_state :=
  foldl (iteration debounce) s ticks.

(** All the events of a schedule, in arrival order. *)
Definition events (ticks : list tick) : list event :=
  ticks ≫= (fun t => arrived t ++ raced t).

Definition paths (ticks : list tick) : gset string :=
  list_to_set (path <$> events ticks).

(** Every event of a tick arrived after the previous iteration and not
    after this one, in order, or while this one was running; iterations
    read increasing clock values, at least the 50 ms sleep apart. *)
Fixpoint schedule_from (prev : Z) (ticks : list tick) : Prop :=
  match ticks with
  | [] => True
  | t :: rest =>
      prev + 50 ≤ now t ∧
      Forall (fun e => prev < at_ms e ≤ now t) (arrived t) ∧
      Forall (fun e => at_ms e = now t) (raced t) ∧
      schedule_from (now t) rest
  end.

(** Consecutive arrivals less than [debounce] apart. *)
Fixpoint close_arrivals (debounce : Z) (es : list event) : Prop :=
  match es with
  | e1 :: (e2 :: _) as rest =>
      0 ≤ at_ms e2 - at_ms e1 < debounce ∧ close_arrivals debounce rest
  | _ => True
  end.

(** Any two arrivals less than [debounce] apart. *)
Definition pairwise_close (debounce : Z) (es : list event) : Prop :=
  ∀ e1 e2, e1 ∈ es → e2 ∈ es → Z.abs (at_ms e2 - at_ms e1) < debounce.

(** The schedule goes on for at least [debounce] after its last event, so
    that nothing is still pending when it ends. *)
Definition settles (debounce : Z) (ticks : list tick) : Prop :=
  ∃ t, last ticks = Some t ∧
       Forall (fun e => at_ms e + debounce + debounce ≤ now t) (events ticks).

Definition nonempty {A} (l : list A) : bool :=
  match l with [] => false | _ => true end.

(** No poll of [ticks] flushes: at each of them the buffer is empty when
    it is read, or less than [debounce] has elapsed since [last] (the
    previous flush, or the start).  [buffered] says whether the buffer is
    non-empty before the first of them. *)
Fixpoint holds_back (debounce last : Z) (buffered : bool) (ticks : list tick)
    : Prop :=
  match ticks with
  | [] => True
  | t :: rest =>
      let read := buffered || nonempty (arrived t) in
      (read = false ∨ now t - last < debounce) ∧
      holds_back debounce last (read || nonempty (raced t)) rest
  end.

(** A flush window: polls that do not flush, then a poll [t] that reads a
    non-empty buffer more than [debounce] after the previous flush. *)
Definition window : Type := list tick * tick.

Definition window_ticks (x : window) : list tick := x.1 ++ [x.2].

(** What the closing poll of a window copies: the paths appended during
    the window up to that copy. *)
Definition heard (x : window) : gset string :=
  list_to_set (path <$> (events x.1 ++ arrived x.2)).

(** A run cut into flush windows, and the polls after the last flush. *)
Fixpoint windows (debounce last : Z) (xs : list window) (tail : list tick)
    : Prop :=
  match xs with
  | [] => holds_back debounce last false tail
  | x :: rest =>
      holds_back debounce last false x.1
      ∧ debounce < now x.2 - last
      ∧ events x.1 ++ arrived x.2 ≠ []
      ∧ windows debounce (now x.2) rest tail
  end.

End RepoWatcher.

(** ** menulcd_bridge.py *)

Module MenuLCDBridge.

(** *** Python values and the hosted side

    The hosted module is third-party code loaded at run time; the bridge
    only probes attributes and calls what it finds.  Objects are therefore
    references, and everything the bridge can ask of the Python runtime and
    of the hosted code is an operation of the interface [Host] over an
    abstract [world] (the hosted object graph with its image buffers, the
    import system, the file system and the process state). *)

Definition frame : Type := nat.     (* identity of a [PIL.Image.Image] object *)
Definition handle : Type := nat.    (* identity of any other object *)
Definition callable_id : Type := nat.
Bind Scope nat_scope with frame handle callable_id.

Inductive value : Type :=
| VNone
| VInt (n : Z)
| VStr (s : string)
| VImage (f : frame)
| VCallable (c : callable_id)
| VObj (h : handle)
| VShim (name : string).  (* an object the bridge itself makes: the [mido]
                             stand-in module, the [_HotspotNoop] class *)

Global Instance value_eq_dec : EqDecision value.
Proof. solve_decision. Defined.

Class Host (world : Type) : Type := {
  (** [o.name]; [None] when the attribute does not exist *)
  attr : world -> value -> string -> option value;
  (** [vars(o).items()], or the [TypeError] of an object without [__dict__] *)
  obj_vars : world -> value -> exn + list (string * value);
  (** truth value of an object *)
  truthy : world -> value -> bool;
  (** [(img.width, img.height)] *)
  image_size : world -> frame -> Z * Z;
  (** the pixel data of an image object *)
  pixels : world -> frame -> list Z;
  (** calling a callable object *)
  invoke : callable_id -> list value -> world -> (exn + value) * world;
  (** [setattr(o, name, v)] *)
  setattr : value -> string -> value -> world -> (exn + unit) * world;
  (** [sys.modules] *)
  sys_modules : world -> string -> option value;
  set_sys_module : string -> value -> world -> world;
  (** [importlib.reload(m)] and [importlib.import_module(name)] *)
  importlib_reload : value -> world -> (exn + value) * world;
  import_module : string -> world -> (exn + value) * world;
  (** [sys.path] *)
  sys_path : world -> list string;
  set_sys_path : list string -> world -> world;
  (** the file system and the process *)
  path_exists : world -> string -> bool;
  getcwd : world -> string;
  chdir : string -> world -> (exn + unit) * world;
  environ_get : world -> string -> option string;
  clock : world -> Z
}.

(** [callable(v)] *)
Definition callable (v : value) : bool :=
  match v with VCallable _ => true | _ => false end.

(** *** The bridge object and the process around it *)

Record Bridge : Type := MkBridge {
  errors : list string;
  repo_path : string;
  menulcd_module : value;
  instance : value;
  _native_size : Z * Z;
  _last_frame : option frame;
  _created_ts : Z;
  display_profile : option string
}.

Definition set_errors (x : list string) (b : Bridge) : Bridge :=
  MkBridge x (repo_path b) (menulcd_module b) (instance b) (_native_size b)
           (_last_frame b) (_created_ts b) (display_profile b).
Definition set_repo_path (x : string) (b : Bridge) : Bridge :=
  MkBridge (errors b) x (menulcd_module b) (instance b) (_native_size b)
           (_last_frame b) (_created_ts b) (display_profile b).
Definition set_menulcd_module (x : value) (b : Bridge) : Bridge :=
  MkBridge (errors b) (repo_path b) x (instance b) (_native_size b)
           (_last_frame b) (_created_ts b) (display_profile b).
Definition set_instance (x : value) (b : Bridge) : Bridge :=
  MkBridge (errors b) (repo_path b) (menulcd_module b) x (_native_size b)
           (_last_frame b) (_created_ts b) (display_profile b).
Definition set_native_size (x : Z * Z) (b : Bridge) : Bridge :=
  MkBridge (errors b) (repo_path b) (menulcd_module b) (instance b) x
           (_last_frame b) (_created_ts b) (display_profile b).
Definition set_last_frame (x : option frame) (b : Bridge) : Bridge :=
  MkBridge (errors b) (repo_path b) (menulcd_module b) (instance b)
           (_native_size b) x (_created_ts b) (display_profile b).
Definition set_created_ts (x : Z) (b : Bridge) : Bridge :=
  MkBridge (errors b) (repo_path b) (menulcd_module b) (instance b)
           (_native_size b) (_last_frame b) x (display_profile b).
Definition set_profile (x : option string) (b : Bridge) : Bridge :=
  MkBridge (errors b) (repo_path b) (menulcd_module b) (instance b)
           (_native_size b) (_last_frame b) (_created_ts b) x.

(** A call the bridge made into hosted code: the attribute name under which
    the callable was found, and the arguments. *)
Definition call_event : Type := string * list value.

Section Bridge.
Context {world : Type} `{!Host world}.

(** Everything a method of the bridge can read or change: the bridge
    object, the world, what was printed, what the logger received, and
    the record of the calls made into hosted code. *)
Record st : Type := St {
  self : Bridge;
  w : world;
  stdout : list string;
  logged : list string;
  calls : list call_event
}.

(** A method body: it ends by returning or by raising, and the state it
    leaves behind is kept in both cases. *)
Definition M (A : Type) : Type := st -> (exn + A) * st.

Definition ret {A} (a : A) : M A := fun s => (inr a, s).
Definition raise {A} (e : exn) : M A := fun s => (inl e, s).
Definition bind {A B} (m : M A) (k : A -> M B) : M B :=
  fun s => match m s with
           | (inr a, s') => k a s'
           | (inl e, s') => (inl e, s')
           end.
(** [try: m except Exception as e: ...] with the handler left to the
    caller: the outcome of [m] as a value. *)
Definition attempt {A} (m : M A) : M (exn + A) :=
  fun s => let '(r, s') := m s in (inr r, s').
(** [try: m finally: fin]; an exception of [fin] replaces the outcome. *)
Definition finally {A} (m : M A) (fin : M unit) : M A :=
  fun s => let '(r, s1) := m s in
           match fin s1 with
           | (inr _, s2) => (r, s2)
           | (inl e, s2) => (inl e, s2)
           end.

Definition get_self : M Bridge := fun s => (inr (self s), s).
Definition modify_self (f : Bridge -> Bridge) : M unit :=
  fun s => (inr tt, St (f (self s)) (w s) (stdout s) (logged s) (calls s)).
Definition ask {A} (f : world -> A) : M A := fun s => (inr (f (w s)), s).
Definition act {A} (f : world -> (exn + A) * world) : M A :=
  fun s => let '(r, w') := f (w s) in
           (r, St (self s) w' (stdout s) (logged s) (calls s)).
Definition update_world (f : world -> world) : M unit :=
  fun s => (inr tt, St (self s) (f (w s)) (stdout s) (logged s) (calls s)).
Definition print (line : string) : M unit :=
  fun s => (inr tt, St (self s) (w s) (stdout s ++ [line]) (logged s) (calls s)).
Definition logger (line : string) : M unit :=
  fun s => (inr tt, St (self s) (w s) (stdout s) (logged s ++ [line]) (calls s)).
Definition record_call (ev : call_event) : M unit :=
  fun s => (inr tt, St (self s) (w s) (stdout s) (logged s) (calls s ++ [ev])).

End Bridge.
Arguments st : clear implicits.
Arguments M : clear implicits.

Declare Scope py_scope.
Delimit Scope py_scope with py.
Notation "x <- m ;; k" := (bind m (fun x => k))
  (at level 100, m at next level, right associativity) : py_scope.
Notation "m ;; k" := (bind m (fun _ => k))
  (at level 100, right associativity) : py_scope.

Local Open Scope py_scope.

Section Methods.
Context {world : Type} `{!Host world}.
Abbreviation M := (M world).

(** [getattr(o, name, None)] *)
Definition getattr (o : value) (name : string) : M value :=
  ask (fun w => default VNone (attr w o name)).

(** [o.name], raising [AttributeError] *)
Definition getattr_strict (o : value) (name : string) : M value :=
  r <- ask (fun w => attr w o name) ;;
  match r with
  | Some v => ret v
  | None => raise (OtherError ("no attribute " +:+ name))
  end.

(** calling, with [args], the object [f] found under [name] *)
Definition call (name : string) (f : value) (args : list value) : M value :=
  match f with
  | VCallable c => record_call (name, args) ;; act (invoke c args)
  | _ => raise (TypeError "object is not callable")
  end.

Definition _push_error (msg : string) : M unit :=
  modify_self (fun b => set_errors (errors b ++ [msg]) b) ;;
  logger msg.

(** [native_size] *)
Definition native_size : M (Z * Z) :=
  b <- get_self ;; ret (_native_size b).

(** [pop_errors] *)
Definition pop_errors : M (list string) :=
  b <- get_self ;;
  modify_self (set_errors []) ;;
  ret (errors b).

(** *** [_extract_frame] *)

(** The first loop: accessor names, called when callable. *)
Fixpoint extract_by_name (inst : value) (names : list string) : M (option frame) :=
  match names with
  | [] => ret None
  | name :: rest =>
      obj <- getattr inst name ;;
      if callable obj then
        r <- attempt (call name obj []) ;;
        match r with
        | inr (VImage f) => ret (Some f)
        | _ => extract_by_name inst rest
        end
      else
        match obj with
        | VImage f => ret (Some f)
        | _ => extract_by_name inst rest
        end
  end.

(** [for _, v in vars(o).items(): if isinstance(v, Image.Image): return v] *)
Definition first_image (items : list (string * value)) : option frame :=
  head (omap (fun kv => match kv.2 with VImage f => Some f | _ => None end) items).

Definition scan_vars (o : value) : M (option frame) :=
  r <- ask (fun w => obj_vars w o) ;;
  match r with
  | inl e => raise e
  | inr items => ret (first_image items)
  end.

(** The loop over the attributes of the nested LCD object (no calls). *)
Fixpoint lcd_by_name (lcd : value) (names : list string) : M (option frame) :=
  match names with
  | [] => ret None
  | name :: rest =>
      obj <- getattr lcd name ;;
      match obj with
      | VImage f => ret (Some f)
      | _ => lcd_by_name lcd rest
      end
  end.

Definition _extract_frame (inst : value) : M (option frame) :=
  r <- extract_by_name inst
         ["get_frame"; "get_framebuffer"; "framebuffer"; "image"; "frame"] ;;
  match r with
  | Some f => ret (Some f)
  | None =>
      r <- scan_vars inst ;;
      match r with
      | Some f => ret (Some f)
      | None =>
          lcd <- getattr inst "LCD" ;;
          if bool_decide (lcd = VNone) then ret None
          else
            r <- lcd_by_name lcd ["frame"; "image"; "framebuffer"; "newimage"; "buffer"] ;;
            match r with
            | Some f => ret (Some f)
            | None => scan_vars lcd
            end
      end
  end.

(** *** [get_frame] *)
Definition get_frame : M (option frame) :=
  r <- attempt (b <- get_self ;;
                fr <- _extract_frame (instance b) ;;
                match fr with
                | Some f => modify_self (set_last_frame (Some f))
                | None => ret tt
                end ;;
                b <- get_self ;; ret (_last_frame b)) ;;
  match r with
  | inr res => ret res
  | inl e =>
      _push_error ("get_frame failed: " +:+ str e) ;;
      b <- get_self ;; ret (_last_frame b)
  end.

(** *** [step] *)

(** Both loops of [step]: the first callable that returns ends the method
    ([true]); a raising one is logged and the loop goes on.  [label] is
    the prefix of the logged name. *)
Fixpoint step_loop (o : value) (label : string) (names : list string) : M bool :=
  match names with
  | [] => ret false
  | name :: rest =>
      meth <- getattr o name ;;
      if callable meth then
        r <- attempt (call name meth []) ;;
        match r with
        | inr _ => ret true
        | inl e =>
            _push_error (label +:+ name +:+ "() error: " +:+ str e) ;;
            step_loop o label rest
        end
      else step_loop o label rest
  end.

Definition step : M unit :=
  b <- get_self ;;
  t <- ask (fun w => truthy w (instance b)) ;;
  if negb t then ret tt
  else
    done <- (b <- get_self ;;
             step_loop (instance b) ""
               ["render"; "draw"; "update"; "tick"; "loop"; "paint";
                "display"; "refresh"; "render_menu"; "renderMenu"]) ;;
    if done : bool then ret tt
    else
      b <- get_self ;;
      lcd <- getattr (instance b) "LCD" ;;
      if bool_decide (lcd = VNone) then ret tt
      else
        step_loop lcd "LCD."
          ["display"; "refresh"; "show"; "update"; "LCD_Display"; "LCD_Show"] ;;
        ret tt.

(** *** Reconstruction *)

(** [_install_mido_stub]: registers the stand-in unless a [mido] module is
    already loaded.  What the stand-in contains plays no part below. *)
Definition _install_mido_stub : M unit :=
  m <- ask (fun w => sys_modules w "mido") ;;
  match m with
  | Some _ => ret tt
  | None => update_world (set_sys_module "mido" (VShim "mido"))
  end.

(** [_reload] *)
Definition _reload (name : string) : M value :=
  m <- ask (fun w => sys_modules w name) ;;
  match m with
  | Some md => act (importlib_reload md)
  | None => act (import_module name)
  end.

(** [needle in hay] on strings *)
Fixpoint contains (needle hay : string) : bool :=
  String.prefix needle hay ||
  match hay with
  | EmptyString => false
  | String _ hay' => contains needle hay'
  end.

(** The font loop: the first non-empty candidate directory holding both
    font files. *)
Fixpoint find_fontdir (w : world) (dirs : list string) : option string :=
  match dirs with
  | [] => None
  | d :: rest =>
      if bool_decide (d = "") then find_fontdir w rest
      else if path_exists w (d +:+ "/FreeSansBold.ttf")
              && path_exists w (d +:+ "/FreeMonoBold.ttf")
           then Some d
           else find_fontdir w rest
  end.

Definition supported_profile (p : option string) : bool :=
  bool_decide (p = None) || bool_decide (p = Some "1in44")
  || bool_decide (p = Some "1in3").

(** The body of the [try] of [_import_and_create], in three parts.
    First, everything up to the call of the initializer: the result is
    the initializer class and the argument object it is about to be
    called with.  The save and restore of [sys.argv] around the lookup
    of [ArgumentParser] leaves [sys.argv] as it was and is left out. *)
Definition locate_initializer : M (value * value) :=
  b <- get_self ;;
  let lib_path := repo_path b +:+ "/lib/menulcd.py" in
  present <- ask (fun w => path_exists w lib_path) ;;
  (if present : bool then ret tt
   else raise (BridgeError ("Missing file: " +:+ lib_path))) ;;
  arg_parser <- _reload "lib.argument_parser" ;;
  Parser <- getattr arg_parser "ArgumentParser" ;;
  (if bool_decide (Parser = VNone)
   then raise (BridgeError "lib.argument_parser.ArgumentParser not found")
   else ret tt) ;;
  plat_mod <- _reload "lib.platform" ;;
  attempt (orig <- getattr plat_mod "Hotspot" ;;
           if bool_decide (orig = VNone) then ret tt
           else act (setattr plat_mod "Hotspot" (VShim "_HotspotNoop"))) ;;
  comp_init <- _reload "lib.component_initializer" ;;
  md <- _reload "lib.menulcd" ;;
  modify_self (set_menulcd_module md) ;;
  parser <- call "ArgumentParser" Parser [] ;;
  args <- getattr_strict parser "args" ;;
  act (setattr args "appmode" (VStr "app")) ;;
  act (setattr args "leddriver" (VStr "emu")) ;;
  act (setattr args "webinterface" (VStr "false")) ;;
  b <- get_self ;;
  match display_profile b with
  | Some p =>
      if bool_decide (p = "1in44") || bool_decide (p = "1in3")
      then act (setattr args "display" (VStr p))
      else ret tt
  | None => ret tt
  end ;;
  env_dir <- ask (fun w => default "" (environ_get w "PIANO_LED_FONTDIR")) ;;
  fontdir <- ask (fun w => find_fontdir w
                    [repo_path b +:+ "/fonts"; repo_path b +:+ "/Fonts"; env_dir]) ;;
  match fontdir with
  | Some d => act (setattr args "fontdir" (VStr d))
  | None => ret tt
  end ;;
  CI <- getattr comp_init "ComponentInitializer" ;;
  (if bool_decide (CI = VNone)
   then raise (BridgeError "lib.component_initializer.ComponentInitializer not found")
   else ret tt) ;;
  ret (CI, args).

(** Second, [ci = CI(args)] with its handler, which adds the
    missing-fonts diagnostic and re-raises. *)
Definition run_initializer (CI args : value) : M value :=
  r <- attempt (call "ComponentInitializer" CI [args]) ;;
  match r with
  | inr ci => ret ci
  | inl e =>
      (if contains "FreeSansBold.ttf" (str e) || contains "FreeMonoBold.ttf" (str e)
       then _push_error ("Missing fonts FreeSansBold.ttf / FreeMonoBold.ttf. "
                         +:+ "Place them in <repo>/fonts or set PIANO_LED_FONTDIR.")
       else ret tt) ;;
      raise e
  end.

Definition build_initializer : M value :=
  p <- locate_initializer ;; run_initializer p.1 p.2.

(** Third, from [self.instance = ci.menu] to the end of the [try]: the
    assignment, then one render step and a frame extraction to learn the
    native size.  The extracted frame is not kept. *)
Definition learn_native_size : M unit :=
  step ;;
  b <- get_self ;;
  img <- _extract_frame (instance b) ;;
  match img with
  | Some f =>
      size <- ask (fun w => image_size w f) ;;
      modify_self (set_native_size size)
  | None => ret tt
  end ;;
  now <- ask clock ;;
  modify_self (set_created_ts now).

Definition adopt (ci : value) : M unit :=
  menu <- getattr_strict ci "menu" ;;
  modify_self (set_instance menu) ;;
  learn_native_size.

Definition create_in_repo : M unit :=
  ci <- build_initializer ;; adopt ci.

(** The statements of [_import_and_create] before its [try]; the result
    is [old_cwd]. *)
Definition enter_repo : M string :=
  _install_mido_stub ;;
  b <- get_self ;;
  let r := repo_path b in
  path <- ask sys_path ;;
  (if bool_decide (r ∈ path) then ret tt
   else update_world (set_sys_path (r :: path))) ;;
  old_cwd <- ask getcwd ;;
  act (chdir r) ;;
  ret old_cwd.

Definition _import_and_create : M unit :=
  old_cwd <- enter_repo ;;
  finally create_in_repo (act (chdir old_cwd)).

(** [reload] *)
Definition reload : M unit :=
  logger "Reloading MenuLCD..." ;;
  r <- attempt _import_and_create ;;
  match r with
  | inr _ => ret tt
  | inl e => _push_error ("Reload failed: " +:+ str e) ;; raise e
  end.

(** [set_repo] *)
Definition set_repo (new_repo : string) : M unit :=
  modify_self (set_repo_path new_repo) ;;
  reload.

(** [set_display_profile] *)
Definition set_display_profile (profile : option string) (reload_flag : bool) : M unit :=
  if negb (supported_profile profile)
  then raise (BridgeError "Invalid display profile (expected '1in44' or '1in3' or None)")
  else
    modify_self (set_profile profile) ;;
    if reload_flag then reload else ret tt.

(** [__init__].  [install_as_rpi] and [apply_fake_platform] register the
    pin shim and set environment defaults; neither touches the bridge
    object and both are left out. *)
Definition new_bridge (repo : string) (profile : option string) : Bridge :=
  {| errors := []; repo_path := repo; menulcd_module := VNone;
     instance := VNone; _native_size := (320, 240); _last_frame := None;
     _created_ts := 0; display_profile := profile |}.

Definition __init__ (repo : string) (profile : option string) (w0 : world)
    : (exn + unit) * st world :=
  _import_and_create (St (new_bridge repo profile) w0 [] [] []).

(** *** Actions *)

(** The [for] loop of [_call_if_exists]: [true] when a candidate returned
    (the method then returns [True]). *)
Fixpoint call_candidates (names : list string) (args : list value)
    (swallow : bool) : M bool :=
  match names with
  | [] => ret false
  | name :: rest =>
      b <- get_self ;;
      f <- getattr (instance b) name ;;
      if callable f then
        r <- attempt (call name f args) ;;
        match r with
        | inr _ => ret true
        | inl e =>
            _push_error (name +:+ " error: " +:+ str e) ;;
            if swallow then call_candidates rest args swallow else raise e
        end
      else call_candidates rest args swallow
  end.

Definition _call_if_exists (candidates : list string) (args : list value)
    (swallow : bool) : M bool :=
  found <- call_candidates candidates args swallow ;;
  if found : bool then ret true
  else
    b <- get_self ;;
    handler <- getattr (instance b) "handle_key" ;;
    match candidates with
    | first :: _ =>
        if callable handler then
          r <- attempt (call "handle_key" handler [VStr first]) ;;
          match r with
          | inr _ => ret true
          | inl e =>
              _push_error ("handle_key error: " +:+ str e) ;;
              if swallow then ret false else raise e
          end
        else ret false
    | [] => ret false
    end.

(** A string in double quotation marks, as two of the printed lines
    have it. *)
Definition quoted (x : string) : string :=
  let q := String (Ascii.ascii_of_nat 34) EmptyString in
  q +:+ x +:+ q.

(** The shape shared by the six navigation methods: print the trace line,
    try the primary method, and on absence or failure go through the
    fallback names.  (The class body defines each of the six twice; the
    later definitions, modelled here, are the ones in effect.) *)
Definition resolve (primary : string) (args : list value)
    (shown : string) (fallbacks : list string) : M unit :=
  b <- get_self ;;
  f <- getattr (instance b) primary ;;
  let fall_back := (_call_if_exists fallbacks [] false ;; ret tt) in
  if callable f then
    r <- attempt (call primary f args) ;;
    match r with
    | inr _ => ret tt
    | inl e => _push_error (shown +:+ " error: " +:+ str e) ;; fall_back
    end
  else fall_back.

Definition navigate (line primary : string) (args : list value)
    (shown : string) (fallbacks : list string) : M unit :=
  print line ;; resolve primary args shown fallbacks.

Definition action_up : M unit :=
  navigate "[BRIDGE] action_up -> change_pointer(-1)"
    "change_pointer" [VInt (-1)] "change_pointer(-1)"
    ["button_up"; "on_up"; "nav_up"; "up"].

Definition action_down : M unit :=
  navigate "[BRIDGE] action_down -> change_pointer(+1)"
    "change_pointer" [VInt 1] "change_pointer(1)"
    ["button_down"; "on_down"; "nav_down"; "down"].

Definition action_left : M unit :=
  navigate ("[BRIDGE] action_left -> change_value(" +:+ quoted "LEFT" +:+ ")")
    "change_value" [VStr "LEFT"] "change_value('LEFT')"
    ["button_left"; "on_left"; "nav_left"; "left"].

Definition action_right : M unit :=
  navigate ("[BRIDGE] action_right -> change_value(" +:+ quoted "RIGHT" +:+ ")")
    "change_value" [VStr "RIGHT"] "change_value('RIGHT')"
    ["button_right"; "on_right"; "nav_right"; "right"].

Definition action_enter : M unit :=
  navigate "[BRIDGE] action_enter -> enter_menu()"
    "enter_menu" [] "enter_menu()"
    ["button_enter"; "on_enter"; "select"; "enter"; "ok"].

Definition action_back : M unit :=
  navigate "[BRIDGE] action_back -> go_back()"
    "go_back" [] "go_back()"
    ["button_back"; "on_back"; "back"; "cancel"].

(** [for _ in range(n): m] *)
Fixpoint repeat_n (n : nat) (m : M unit) : M unit :=
  match n with
  | O => ret tt
  | S n' => m ;; repeat_n n' m
  end.

Definition action_home : M unit :=
  print "[BRIDGE] action_home" ;;
  found <- _call_if_exists ["home"; "go_home"; "to_root"; "menu_home"] [] true ;;
  if found : bool then ret tt
  else repeat_n 5 action_back.

Definition encoder_names : list string :=
  ["encoder"; "on_encoder"; "rotate"; "on_rotate"].

Definition action_encoder (delta : Z) : M unit :=
  print ("[BRIDGE] action_encoder delta=" +:+ pretty delta) ;;
  found <- _call_if_exists encoder_names [VInt delta] true ;;
  if found : bool then ret tt
  else if bool_decide (delta > 0) then repeat_n (Z.abs_nat delta) action_down
  else if bool_decide (delta < 0) then repeat_n (Z.abs_nat delta) action_up
  else ret tt.

(** *** The logical actions and their resolution lists *)

Inductive action : Type := Up | Down | Left | Right | Enter | Back.

Definition perform (a : action) : M unit :=
  match a with
  | Up => action_up
  | Down => action_down
  | Left => action_left
  | Right => action_right
  | Enter => action_enter
  | Back => action_back
  end.

(** The semantic primary method of an action. *)
Definition primary (a : action) : string :=
  match a with
  | Up | Down => "change_pointer"
  | Left | Right => "change_value"
  | Enter => "enter_menu"
  | Back => "go_back"
  end.

Definition primary_args (a : action) : list value :=
  match a with
  | Up => [VInt (-1)]
  | Down => [VInt 1]
  | Left => [VStr "LEFT"]
  | Right => [VStr "RIGHT"]
  | Enter | Back => []
  end.

(** The generically named fallbacks of an action. *)
Definition fallbacks (a : action) : list string :=
  match a with
  | Up => ["button_up"; "on_up"; "nav_up"; "up"]
  | Down => ["button_down"; "on_down"; "nav_down"; "down"]
  | Left => ["button_left"; "on_left"; "nav_left"; "left"]
  | Right => ["button_right"; "on_right"; "nav_right"; "right"]
  | Enter => ["button_enter"; "on_enter"; "select"; "enter"; "ok"]
  | Back => ["button_back"; "on_back"; "back"; "cancel"]
  end.

(** The trace line an action prints on entry. *)
Definition trace_line (a : action) : string :=
  match a with
  | Up => "[BRIDGE] action_up -> change_pointer(-1)"
  | Down => "[BRIDGE] action_down -> change_pointer(+1)"
  | Left => "[BRIDGE] action_left -> change_value(" +:+ quoted "LEFT" +:+ ")"
  | Right => "[BRIDGE] action_right -> change_value(" +:+ quoted "RIGHT" +:+ ")"
  | Enter => "[BRIDGE] action_enter -> enter_menu()"
  | Back => "[BRIDGE] action_back -> go_back()"
  end.

(** The resolution list of an action, in priority order, with the
    arguments each candidate is called with: the primary method, the
    fallbacks, then the generic key handler with the first fallback name
    as its token. *)
Definition resolution (a : action) : list call_event :=
  (primary a, primary_args a)
  :: ((fun n => (n, [])) <$> fallbacks a)
  ++ [("handle_key", [VStr (default "" (head (fallbacks a)))])].

(** The hosted instance exposes the method [name]. *)
Definition exposes (w : world) (inst : value) (name : string) : bool :=
  callable (default VNone (attr w inst name)).

(** The candidates of the resolution list that the instance exposes. *)
Definition exposed (w : world) (inst : value) (a : action) : list call_event :=
  filter (fun ev => exposes w inst ev.1 = true) (resolution a).

(** *** Sequences of operations on one bridge *)

Inductive op : Type :=
| OpNativeSize
| OpGetFrame
| OpStep
| OpReload
| OpSetRepo (new_repo : string)
| OpAction (a : action)
| OpHome
| OpEncoder (delta : Z)
| OpPopErrors
| OpSetDisplayProfile (profile : option string) (reload_flag : bool).

(** An operation as its caller sees it: the frame it returned, if it is
    [get_frame] and returned one, and the state afterwards.  An exception
    reaches the caller and the bridge stays in use. *)
Definition run_op (o : op) (s : st world) : option frame * st world :=
  match o with
  | OpGetFrame =>
      let '(r, s') := get_frame s in
      (match r with inr (Some f) => Some f | _ => None end, s')
  | OpNativeSize => (None, (native_size s).2)
  | OpStep => (None, (step s).2)
  | OpReload => (None, (reload s).2)
  | OpSetRepo p => (None, (set_repo p s).2)
  | OpAction a => (None, (perform a s).2)
  | OpHome => (None, (action_home s).2)
  | OpEncoder d => (None, (action_encoder d s).2)
  | OpPopErrors => (None, (pop_errors s).2)
  | OpSetDisplayProfile p r => (None, (set_display_profile p r s).2)
  end.

(** The frames returned along a sequence of operations, and the state at
    its end. *)
Fixpoint run_ops (os : list op) (s : st world) : list frame * st world :=
  match os with
  | [] => ([], s)
  | o :: rest =>
      let '(f, s1) := run_op o s in
      let '(fs, s2) := run_ops rest s1 in
      (option_list f ++ fs, s2)
  end.

End Methods.

(** *** What a method leaves alone

    A relation between the state before and after is [stable] for a method
    when every run of the method, returning or raising, stays within it. *)

Section Frames.
Context {world : Type} `{!Host world}.
Implicit Types (s : st world).

Definition with_self (b : Bridge) s : st world :=
  St b (w s) (stdout s) (logged s) (calls s).
Definition with_world (w' : world) s : st world :=
  St (self s) w' (stdout s) (logged s) (calls s).

(** The state in which [reload] starts the reconstruction (it has
    logged its first line), and the state in which it re-raises [e] (it
    has pushed the error). *)
Definition announced s : st world :=
  St (self s) (w s) (stdout s) (logged s ++ ["Reloading MenuLCD..."]) (calls s).
Definition reported (e : exn) s : st world :=
  St (set_errors (errors (self s) ++ ["Reload failed: " +:+ str e]) (self s))
     (w s) (stdout s) (logged s ++ ["Reload failed: " +:+ str e]) (calls s).

Definition stable {A} (R : relation (st world)) (m : M world A) : Prop :=
  ∀ s, R s (m s).2.

(** A relation that admits the steps every method may take: logging,
    recording a call, writing the error list, and whatever a call into
    hosted code does to the world. *)
Class Core (R : relation (st world)) : Prop := {
  basic_refl : ∀ s, R s s;
  basic_trans : ∀ s1 s2 s3, R s1 s2 → R s2 s3 → R s1 s3;
  basic_logger : ∀ s l,
    R s (St (self s) (w s) (stdout s) (logged s ++ [l]) (calls s));
  basic_record : ∀ s ev,
    R s (St (self s) (w s) (stdout s) (logged s) (calls s ++ [ev]));
  basic_errors : ∀ s x, R s (with_self (set_errors x (self s)) s);
  basic_invoke : ∀ s c args, R s (with_world (invoke c args (w s)).2 s)
}.

(** A relation that admits, besides, the steps of a reconstruction: the
    bridge's own attribute assignments, the imports, the changes of
    directory and of [sys.modules] and [sys.path]. *)
Class Basic (R : relation (st world)) : Prop := {
  basic_core : Core R;
  basic_setattr : ∀ s o n v, R s (with_world (setattr o n v (w s)).2 s);
  basic_reload : ∀ s md, R s (with_world (importlib_reload md (w s)).2 s);
  basic_import : ∀ s n, R s (with_world (import_module n (w s)).2 s);
  basic_chdir : ∀ s p, R s (with_world (chdir p (w s)).2 s);
  basic_sys_module : ∀ s n v, R s (with_world (set_sys_module n v (w s)) s);
  basic_sys_path : ∀ s l, R s (with_world (set_sys_path l (w s)) s)
}.

(** Admitting a printed line, and admitting the assignment of a field. *)
Definition admits_print (R : relation (st world)) : Prop :=
  ∀ s l, R s (St (self s) (w s) (stdout s ++ [l]) (logged s) (calls s)).
Definition admits {X} (R : relation (st world)) (set : X → Bridge → Bridge) : Prop :=
  ∀ s x, R s (with_self (set x (self s)) s).

Definition keeps_last_frame : relation (st world) :=
  fun s s' => _last_frame (self s') = _last_frame (self s).
Definition keeps_instance : relation (st world) :=
  fun s s' => instance (self s') = instance (self s).
Definition keeps_stdout : relation (st world) :=
  fun s s' => stdout s' = stdout s.
Definition extends_calls : relation (st world) :=
  fun s s' => ∃ more, calls s' = calls s ++ more.
Definition maintains (I : world → Prop) : relation (st world) :=
  fun s s' => I (w s) → I (w s').

(** [I] survives everything the hosted side and the runtime can do. *)
Definition host_preserves (I : world → Prop) : Prop :=
  (∀ c args x, I x → I (invoke c args x).2)
  ∧ (∀ o n v x, I x → I (setattr o n v x).2)
  ∧ (∀ md x, I x → I (importlib_reload md x).2)
  ∧ (∀ n x, I x → I (import_module n x).2)
  ∧ (∀ p x, I x → I (chdir p x).2)
  ∧ (∀ n v x, I x → I (set_sys_module n v x))
  ∧ (∀ l x, I x → I (set_sys_path l x)).

End Frames.

#[global] Existing Instance basic_core.

End MenuLCDBridge.

(** ** stubs_gpio.py: the PWM object *)

Module PWM.

Section Duty.
(** Frequencies and duty cycles are Python floats that the object only
    stores; [T] is their type and [zero] stands for [0.0]. *)
Context {T : Type} (zero : T).

Record _PWM : Type := Mk_PWM {
  channel : Z;
  freq : T;
  duty : T;
  running : bool
}.

(** [PWM(channel, freq)], that is [_PWM.__init__] *)
Definition PWM (channel : Z) (freq : T) : _PWM :=
  {| channel := channel; freq := freq; duty := zero; running := false |}.

Definition start (d : T) (p : _PWM) : _PWM :=
  {| channel := channel p; freq := freq p; duty := d; running := true |}.

Definition ChangeDutyCycle (d : T) (p : _PWM) : _PWM :=
  {| channel := channel p; freq := freq p; duty := d; running := running p |}.

Definition stop (p : _PWM) : _PWM :=
  {| channel := channel p; freq := freq p; duty := duty p; running := false |}.

Inductive pwm_op : Type :=
| Start (d : T)
| Change (d : T)
| Stop.

Definition run_op (p : _PWM) (o : pwm_op) : _PWM :=
  match o with
  | Start d => start d p
  | Change d => ChangeDutyCycle d p
  | Stop => stop p
  end.

Definition run_ops (os : list pwm_op) (p : _PWM) : _PWM := foldl run_op p os.

(** The duty cycle most recently given, if any. *)
Definition last_duty (os : list pwm_op) : option T :=
  last (omap (fun o => match o with Start d | Change d => Some d | Stop => None end) os).

(** Whether the last [start] or [stop] was a [start]. *)
Definition last_switch (os : list pwm_op) : option bool :=
  last (omap (fun o => match o with
                       | Start _ => Some true
                       | Stop => Some false
                       | Change _ => None
                       end) os).

End Duty.
Arguments _PWM : clear implicits.
Arguments pwm_op : clear implicits.

End PWM.

(** ** fake_platform.py *)

Module FakePlatform.

(** [os.environ.setdefault(k, v)] on the environment as a dictionary *)
Definition setdefault (k v : string) (env : gmap string string) : gmap string string :=
  match env !! k with
  | Some _ => env
  | None => <[k := v]> env
  end.

Definition apply (env : gmap string string) : gmap string string :=
  setdefault "SDL_VIDEODRIVER" "dummy" (setdefault "PLATFORM" "SIMULATED" env).

End FakePlatform.

(** ** watcher.py: start and stop *)

Module Watching.

(** A watch scheduled on the observer. *)
Record watch : Type := Watch { directory : string; recursive : bool }.

(** The watcher object.  [_obs] is the running observer, given by the
    watches scheduled on it; [_thr] says that the loop thread exists;
    [_stop] is the state of the stop event. *)
Record RepoWatcher : Type := MkWatcher {
  paths : list string;
  debounce_ms : Z;
  _obs : option (list watch);
  _changed : list string;
  _stop : bool;
  _thr : bool;
  is_running : bool
}.

(** [__init__] *)
Definition new_watcher (paths : list string) (debounce_ms : Z) : RepoWatcher :=
  {| paths := paths; debounce_ms := debounce_ms; _obs := None; _changed := [];
     _stop := false; _thr := false; is_running := false |}.

Section FileSystem.
(** The file system at the time of [start]: a path is missing ([None]),
    a directory ([Some true]) or something else ([Some false]);
    [parent] is [Path.parent]. *)
Context (fs : string -> option bool) (parent : string -> string).

(** The loop of [start] over the targets. *)
Fixpoint schedule (ps : list string) : list watch :=
  match ps with
  | [] => []
  | p :: rest =>
      match fs p with
      | None => schedule rest
      | Some true => Watch p true :: schedule rest
      | Some false => Watch (parent p) false :: schedule rest
      end
  end.

Definition start (x : RepoWatcher) : RepoWatcher :=
  if is_running x then x
  else {| paths := paths x; debounce_ms := debounce_ms x;
          _obs := Some (schedule (paths x)); _changed := [];
          _stop := false; _thr := true; is_running := true |}.

End FileSystem.

(** [stop]; the joins are bounded waits and leave no trace in the object. *)
Definition stop (x : RepoWatcher) : RepoWatcher :=
  if negb (is_running x) then x
  else {| paths := paths x; debounce_ms := debounce_ms x;
          _obs := None; _changed := _changed x;
          _stop := true; _thr := false; is_running := false |}.

End Watching.

(** ** watcher.py: what the flush loop has seen *)

Module WatcherAccount.

(** Every path the loop has taken in: delivered in some payload, still
    pending in the buffer, or dropped. *)
Definition seen (s : RepoWatcher.loop_state) : gset string :=
  ⋃ (RepoWatcher.delivered s) ∪ list_to_set (RepoWatcher._changed s)
  ∪ list_to_set (RepoWatcher.lost s).

End WatcherAccount.

(** ** menulcd_bridge.py: what operations leave alone *)

Module BridgeFrames.
Import MenuLCDBridge.

Section Relations.
Context {world : Type} `{!Host world}.

(** What only a reconstruction assigns. *)
Definition keeps_construction : relation (st world) :=
fun s s' => instance (self s') = instance (self s)
            ∧ _native_size (self s') = _native_size (self s)
            ∧ menulcd_module (self s') = menulcd_module (self s)
            ∧ _created_ts (self s') = _created_ts (self s).
Definition keeps_repo_path : relation (st world) :=
fun s s' => repo_path (self s') = repo_path (self s).
Definition keeps_profile : relation (st world) :=
fun s s' => display_profile (self s') = display_profile (self s).

(** The operations that run [_import_and_create]. *)
Definition reconstructs (o : op) : bool :=
match o with
| OpReload | OpSetRepo _ => true
| OpSetDisplayProfile _ reload_flag => reload_flag
| _ => false
end.

Definition sets_repo (o : op) : bool :=
match o with OpSetRepo _ => true | _ => false end.

Definition sets_profile (o : op) : bool :=
match o with OpSetDisplayProfile _ _ => true | _ => false end.

(** The first non-empty candidate directory with both font files. *)
Definition has_fonts (x : world) (d : string) : Prop :=
d ≠ "" ∧ path_exists x (d +:+ "/FreeSansBold.ttf") = true
∧ path_exists x (d +:+ "/FreeMonoBold.ttf") = true.

Global Instance has_fonts_dec x d : Decision (has_fonts x d).
Proof. unfold has_fonts. apply _. Defined.

End Relations.

End BridgeFrames.

(** ** menulcd_bridge.py: snapshot_png *)

Module Capture.
Import MenuLCDBridge.
Local Open Scope py_scope.

(** What [snapshot_png] needs beyond [Host]: the output directory (fixed by
    where the package is installed), [mkdir(parents=True, exist_ok=True)],
    [time.strftime] with the format of the source, and [Image.save]. *)
Class Disk (world : Type) : Type := {
  SNAP_DIR : string;
  mkdir : string -> world -> (exn + unit) * world;
  strftime : world -> string;
  save : frame -> string -> world -> (exn + unit) * world
}.

Section Snapshot.
Context {world : Type} `{!Host world} `{!Disk world}.

Definition snapshot_path (ts : string) : string :=
  SNAP_DIR +:+ "/snapshot_" +:+ ts +:+ ".png".

Definition snapshot_png : M world string :=
  act (mkdir SNAP_DIR) ;;
  ts <- ask strftime ;;
  let p := snapshot_path ts in
  frame <- get_frame ;;
  match frame with
  | None => raise (BridgeError "No frame to save.")
  | Some f =>
      record_call ("save", [VImage f; VStr p]) ;;
      act (save f p) ;;
      ret p
  end.

End Snapshot.

End Capture.

(** ** menu_controller.py *)

Module MenuController.
Import MenuLCDBridge.
Local Open Scope py_scope.

(** The keys the filter tells apart; every other key is [Key_other]. *)
Inductive key : Type :=
| Key_Up | Key_Down | Key_Left | Key_Right
| Key_Return | Key_Enter | Key_Escape | Key_Backspace | Key_Home
| Key_other.

(** An event as the filter looks at it: its type, its key when it has one,
    and for a wheel event what [angleDelta().y()] gives (a number, or an
    exception). *)
Inductive event : Type :=
| ShortcutOverride (k : option key)
| KeyPress (k : option key)
| Wheel (delta : exn + Z)
| OtherEvent.

(** What [eventFilter] returns, and whether it called [ev.accept()]. *)
Record verdict : Type := Verdict { handled : bool; accepted : bool }.

Definition navigation_key (k : key) : bool :=
  match k with Key_other => false | _ => true end.

Section Filter.
Context {world : Type} `{!Host world}.

(** The body of the outer [try] of [eventFilter]; [None] when it falls
    through to the final [return False]. *)
Definition filter_body (ev : event) : M world (option verdict) :=
  match ev with
  | ShortcutOverride (Some k) =>
      if navigation_key k then
        print "[KEY] ShortcutOverride -> accept" ;;
        ret (Some (Verdict true true))
      else ret None
  | ShortcutOverride None => ret None
  | KeyPress k =>
      match k with
      | Some Key_Up =>
          print "[KEY] UP -> action_up()" ;; action_up ;;
          ret (Some (Verdict true false))
      | Some Key_Down =>
          print "[KEY] DOWN -> action_down()" ;; action_down ;;
          ret (Some (Verdict true false))
      | Some Key_Left =>
          print "[KEY] LEFT -> action_left()" ;; action_left ;;
          ret (Some (Verdict true false))
      | Some Key_Right =>
          print "[KEY] RIGHT -> action_right()" ;; action_right ;;
          ret (Some (Verdict true false))
      | Some Key_Return | Some Key_Enter =>
          print "[KEY] ENTER -> action_enter()" ;; action_enter ;;
          ret (Some (Verdict true false))
      | Some Key_Escape | Some Key_Backspace =>
          print "[KEY] BACK -> action_back()" ;; action_back ;;
          ret (Some (Verdict true false))
      | Some Key_Home =>
          print "[KEY] HOME -> action_home()" ;; action_home ;;
          ret (Some (Verdict true false))
      | _ => ret None
      end
  | Wheel d =>
      let delta := match d with inr y => y | inl _ => 0 end in
      if bool_decide (delta ≠ 0) then
        let step := if bool_decide (delta > 0) then 1 else -1 in
        print "[KEY] WHEEL {delta} -> encoder {step}" ;;
        r <- attempt (action_encoder step) ;;
        match r with
        | inr _ => ret tt
        | inl _ => if bool_decide (step > 0) then action_down else action_up
        end ;;
        ret (Some (Verdict true false))
      else ret None
  | OtherEvent => ret None
  end.

Definition eventFilter (ev : event) : M world verdict :=
  r <- attempt (filter_body ev) ;;
  match r with
  | inr (Some v) => ret v
  | inr None => ret (Verdict false false)
  | inl e =>
      print "[KEY][ERR] eventFilter: {e}" ;;
      ret (Verdict false false)
  end.

(** The bridge method a navigation key press runs. *)
Definition key_action (k : key) : option (M world unit) :=
  match k with
  | Key_Up => Some action_up
  | Key_Down => Some action_down
  | Key_Left => Some action_left
  | Key_Right => Some action_right
  | Key_Return | Key_Enter => Some action_enter
  | Key_Escape | Key_Backspace => Some action_back
  | Key_Home => Some action_home
  | Key_other => None
  end.

End Filter.

(** The line a navigation key press prints before it runs its action. *)
Definition key_line (k : key) : string :=
  match k with
  | Key_Up => "[KEY] UP -> action_up()"
  | Key_Down => "[KEY] DOWN -> action_down()"
  | Key_Left => "[KEY] LEFT -> action_left()"
  | Key_Right => "[KEY] RIGHT -> action_right()"
  | Key_Return | Key_Enter => "[KEY] ENTER -> action_enter()"
  | Key_Escape | Key_Backspace => "[KEY] BACK -> action_back()"
  | Key_Home => "[KEY] HOME -> action_home()"
  | Key_other => ""
  end.

(** The events no branch of the filter takes: other event types, events
    without a key or with another key, and wheel events whose delta is
    zero or cannot be read. *)
Definition ignored (ev : event) : bool :=
  match ev with
  | OtherEvent => true
  | ShortcutOverride None | KeyPress None => true
  | ShortcutOverride (Some k) | KeyPress (Some k) => negb (navigation_key k)
  | Wheel (inl _) => true
  | Wheel (inr d) => bool_decide (d = 0)
  end.

End MenuController.

(** * Concrete inputs

    Small instances of the interfaces above, used to run the definitions. *)

Module Sample.

(** ** Pin shim *)

(** A world that counts the executions of callback bodies. *)
Definition counting (raises : option exn) : option Z -> nat -> option exn * nat :=
  fun _ n => (raises, S n).

(** The messages of CPython for a call of [cb] that does not bind. *)
Definition too_many (arg : option Z) : string :=
  "cb() takes 0 positional arguments but 1 was given".
Definition too_few (arg : option Z) : string :=
  "cb() missing 1 required positional argument: 'channel'".

(** [def cb(channel): ...] *)
Definition one_param : GPIO.callback nat :=
  GPIO.Callback true true false too_few (counting None).
(** [def cb(): ...] *)
Definition zero_param : GPIO.callback nat :=
  GPIO.Callback true false true too_many (counting None).
(** [def cb(channel=None): raise TypeError("bad operand")] *)
Definition optional_param_raising : GPIO.callback nat :=
  GPIO.Callback true true true too_many (counting (Some (TypeError "bad operand"))).

(** ** Watcher *)

Definition quiet_tick (t : Z) : RepoWatcher.tick := RepoWatcher.Tick t [] [].

(** Polls every 55 ms for 715 ms; [config/menu.xml] changes at 140 ms and
    [config/settings.xml] at 290 ms.  No poll falls exactly one debounce
    interval of 200 ms after the start or after a flush. *)
Definition two_edits : list RepoWatcher.tick :=
  [ quiet_tick 55; quiet_tick 110;
    RepoWatcher.Tick 165 [RepoWatcher.Event 140 "config/menu.xml"] [];
    quiet_tick 220; quiet_tick 275;
    RepoWatcher.Tick 330 [RepoWatcher.Event 290 "config/settings.xml"] [];
    quiet_tick 385; quiet_tick 440; quiet_tick 495; quiet_tick 550;
    quiet_tick 605; quiet_tick 660; quiet_tick 715 ].

(** Nothing happens for 275 ms; then two files change and the next poll
    copies both, while a third change comes in before the buffer is
    cleared. *)
Definition idle_then_burst : RepoWatcher.window :=
  ([ quiet_tick 55; quiet_tick 110; quiet_tick 165; quiet_tick 220;
     quiet_tick 275 ],
   RepoWatcher.Tick 330 [RepoWatcher.Event 300 "config/menu.xml";
                         RepoWatcher.Event 310 "config/settings.xml"]
                        [RepoWatcher.Event 330 "config/late.xml"]).

(** Changes right after that flush wait for the interval to elapse. *)
Definition follow_up : RepoWatcher.window :=
  ([ RepoWatcher.Tick 385 [RepoWatcher.Event 350 "fonts/a.ttf"] [];
     RepoWatcher.Tick 440 [RepoWatcher.Event 400 "config/menu.xml"] [];
     quiet_tick 495 ],
   quiet_tick 550).

(** One more change, still pending when the run ends. *)
Definition pending_tail : list RepoWatcher.tick :=
  [ RepoWatcher.Tick 605 [RepoWatcher.Event 600 "config/menu.xml"] [] ].

(** ** A hosted module

    A repository whose modules load: [lib.argument_parser] is object 1 and
    its [ArgumentParser] (callable 101) returns a parser, object 2, whose
    [args] is object 3; [lib.platform] is object 4; the initializer of
    [lib.component_initializer] (object 5, callable 103) returns object 6,
    whose [menu] is object 7; [lib.menulcd] is object 8.  The attributes of
    the menu object, the callables that raise, the files that exist and the
    pixels of image 0 are part of the world.  Callable 1 is a render method
    that draws on image 0 in place; callable 5 is a method after which the
    menu object no longer has its [image] attribute; callable 104 is an
    initializer that fails on a missing font. *)

Import MenuLCDBridge.

Record hosted : Type := Hosted {
  files : list string;
  menu : list (string * value);
  failing : list callable_id;
  pix : list Z;
  cwd : string
}.

Definition lookup_attr (name : string) (attrs : list (string * value)) : option value :=
  snd <$> head (filter (fun kv => kv.1 = name) attrs).

Definition hosted_attr (x : hosted) (o : value) (name : string) : option value :=
  match o with
  | VObj 1 => if bool_decide (name = "ArgumentParser") then Some (VCallable 101) else None
  | VObj 2 => if bool_decide (name = "args") then Some (VObj 3) else None
  | VObj 4 => if bool_decide (name = "Hotspot") then Some (VCallable 102) else None
  | VObj 5 => if bool_decide (name = "ComponentInitializer") then Some (VCallable 103) else None
  | VObj 6 => if bool_decide (name = "menu") then Some (VObj 7) else None
  | VObj 7 => lookup_attr name (menu x)
  | _ => None
  end.

Definition hosted_invoke (c : callable_id) (args : list value) (x : hosted)
    : (exn + value) * hosted :=
  if bool_decide (c ∈ failing x) then (inl (OtherError "boom"), x)
  else match c with
       | 101%nat => (inr (VObj 2), x)
       | 103%nat => (inr (VObj 6), x)
       | 104%nat => (inl (OtherError "cannot open resource fonts/FreeSansBold.ttf"), x)
       | 1%nat => (inr VNone,
                   Hosted (files x) (menu x) (failing x) ((fun p => p + 1) <$> pix x) (cwd x))
       | 5%nat => (inr VNone,
                   Hosted (files x) (filter (fun kv => kv.1 ≠ "image") (menu x))
                     (failing x) (pix x) (cwd x))
       | _ => (inr VNone, x)
       end.

Definition hosted_import (name : string) (x : hosted) : (exn + value) * hosted :=
  if bool_decide (name = "lib.argument_parser") then (inr (VObj 1), x)
  else if bool_decide (name = "lib.platform") then (inr (VObj 4), x)
  else if bool_decide (name = "lib.component_initializer") then (inr (VObj 5), x)
  else if bool_decide (name = "lib.menulcd") then (inr (VObj 8), x)
  else (inl (OtherError ("No module named " +:+ name)), x).

Global Instance hosted_host : Host hosted := {|
  attr := hosted_attr;
  obj_vars := fun x o =>
    match o with
    | VNone => inl (TypeError "vars() argument must have __dict__ attribute")
    | VObj 7 => inr (menu x)
    | _ => inr []
    end;
  truthy := fun _ o => negb (bool_decide (o = VNone));
  image_size := fun _ _ => (128, 128);
  pixels := fun x f => match f with O => pix x | _ => [] end;
  invoke := hosted_invoke;
  setattr := fun _ _ _ x => (inr tt, x);
  sys_modules := fun _ _ => None;
  set_sys_module := fun _ _ x => x;
  importlib_reload := fun md x => (inr md, x);
  import_module := hosted_import;
  sys_path := fun _ => [];
  set_sys_path := fun _ x => x;
  path_exists := fun x p => bool_decide (p ∈ files x);
  getcwd := cwd;
  chdir := fun p x => (inr tt, Hosted (files x) (menu x) (failing x) (pix x) p);
  environ_get := fun _ _ => None;
  clock := fun _ => 0
|}.

(** The repository at [/repo], complete, with the given menu object. *)
Definition repo (attrs : list (string * value)) (bad : list callable_id) : hosted :=
  Hosted ["/repo/lib/menulcd.py"] attrs bad [0; 0] "/home".

(** The same after [lib/menulcd.py] has been removed. *)
Definition repo_without_lib (attrs : list (string * value)) : hosted :=
  Hosted [] attrs [] [0; 0] "/home".

(** A bridge on [/repo] holding [inst], outside any method. *)
Definition bridge_on (inst : value) (x : hosted) : st hosted :=
  St (MkBridge [] "/repo" (VObj 8) inst (320, 240) None 0 None) x [] [] [].

(** A menu that draws in place on the image it exposes. *)
Definition drawing_menu : list (string * value) :=
  [("image", VImage 0); ("render", VCallable 1)].

(** A menu that exposes its image until [go_back] is called. *)
Definition menu_losing_image : list (string * value) :=
  [("image", VImage 0); ("go_back", VCallable 5)].

(** A menu whose primary pointer method raises and that also has a generic
    [button_up]. *)
Definition menu_with_broken_pointer : list (string * value) :=
  [("change_pointer", VCallable 2); ("button_up", VCallable 3)].

(** A menu without a pointer method and with two of the generic names. *)
Definition menu_with_generic_up : list (string * value) :=
  [("button_up", VCallable 3); ("up", VCallable 4)].

(** A menu with only the generic [button_down], which raises. *)
Definition menu_with_broken_down : list (string * value) :=
  [("button_down", VCallable 3)].

End Sample.

(** ** Concrete inputs for the capture and controller methods *)

Module SampleDisk.
Import MenuLCDBridge.

(** Snapshots go to [/out]; the clock reads 2026-11-03 12:00:00; making the
    directory and saving always succeed. *)
Global Instance hosted_disk : Capture.Disk Sample.hosted := {|
  Capture.SNAP_DIR := "/out";
  Capture.mkdir := fun _ x => (inr tt, x);
  Capture.strftime := fun _ => "20261103_120000";
  Capture.save := fun _ _ x => (inr tt, x)
|}.

End SampleDisk.

(** * Properties *)

(** ** Pin shim *)

Section GPIO_facts.
Context {W : Type}.
Implicit Types (s : GPIO.state W) (cb : GPIO.callback W) (w : W).

Lemma input_output c v s :
  GPIO.input c (GPIO.output c v s) = if GPIO.truthy v then GPIO.HIGH else GPIO.LOW.
Proof. unfold GPIO.input, GPIO.output; simpl. by rewrite lookup_insert_eq. Qed.

Lemma input_never_configured c :
  GPIO.input c (GPIO.initial (W:=W)) = GPIO.LOW.
Proof. unfold GPIO.input, GPIO.initial; simpl. by rewrite lookup_empty. Qed.

(** The stored levels stay the two levels as long as no [setup] supplies
    another initial value. *)
Lemma levels_only_run_op o s :
  GPIO.level_setup o → GPIO.levels_only s → GPIO.levels_only (GPIO.run_op o s).
Proof.
  intros Ho Hs c v. destruct o as [c' m p [i|] | c' x | c' | [c'|]]; simpl.
  - destruct (decide (c' = c)) as [->|Hne].
    + rewrite lookup_insert_eq. intros [= <-]. exact Ho.
    + rewrite lookup_insert_ne by done. apply Hs.
  - apply Hs.
  - destruct (decide (c' = c)) as [->|Hne].
    + rewrite lookup_insert_eq. intros [= <-].
      destruct (GPIO.truthy x); [by left | by right].
    + rewrite lookup_insert_ne by done. apply Hs.
  - apply Hs.
  - destruct (decide (c' = c)) as [->|Hne].
    + by rewrite lookup_delete_eq.
    + rewrite lookup_delete_ne by done. apply Hs.
  - by rewrite lookup_empty.
Qed.

Lemma levels_only_run_ops os s :
  Forall GPIO.level_setup os → GPIO.levels_only s → GPIO.levels_only (GPIO.run_ops os s).
Proof.
  revert s. induction os as [|o os IH]; intros s Hos Hs; [done|].
  inversion Hos; subst. apply IH; [done|]. by apply levels_only_run_op.
Qed.

(** With initial values restricted to the two levels, every read returns
    one of them. *)
Lemma input_is_level os c :
  Forall GPIO.level_setup os →
  GPIO.input c (GPIO.run_ops os (GPIO.initial (W:=W))) = GPIO.HIGH
  ∨ GPIO.input c (GPIO.run_ops os (GPIO.initial (W:=W))) = GPIO.LOW.
Proof.
  intros Hos. unfold GPIO.input.
  destruct (GPIO._pin_state _ !! c) as [v|] eqn:E; simpl; [|by right].
  eapply (levels_only_run_ops os); [done| |exact E].
  intros c' v'. simpl. by rewrite lookup_empty.
Qed.

(** No callback registered: nothing runs and nothing changes. *)
Lemma simulate_edge_unregistered c s w :
  GPIO._callbacks s !! c = None → GPIO.simulate_edge c s w = (None, w, []).
Proof. intros H. unfold GPIO.simulate_edge. by rewrite H. Qed.

(** A callback that takes exactly the channel, or exactly nothing, has
    its body executed once, with the outcome of that execution. *)
Lemma simulate_edge_exact_signature c s w cb :
  GPIO._callbacks s !! c = Some cb →
  GPIO.truth cb = true →
  GPIO.takes_channel cb = negb (GPIO.takes_nothing cb) →
  let arg := if GPIO.takes_channel cb then Some c else None in
  ∃ r, GPIO.simulate_edge c s w = (r, (GPIO.body cb arg w).2, [arg])
       ∧ ((GPIO.body cb arg w).1 = None → r = None).
Proof.
  intros Hcb Htrue Hsig. unfold GPIO.simulate_edge, GPIO.call_callback.
  rewrite Hcb, Htrue.
  destruct (GPIO.takes_channel cb), (GPIO.takes_nothing cb); try discriminate; simpl.
  - destruct (GPIO.body cb (Some c) w) as [[e|] w1]; simpl.
    + destruct e; simpl; eexists; (split; [reflexivity | done]).
    + by eexists.
  - destruct (GPIO.body cb None w) as [r w1]; simpl. by eexists.
Qed.

(** A callback that accepts both call shapes and whose body raises
    [TypeError] when given the channel is run a second time, without the
    argument. *)
Lemma simulate_edge_retries_after_body_type_error c s w cb msg w1 :
  GPIO._callbacks s !! c = Some cb →
  GPIO.truth cb = true →
  GPIO.takes_channel cb = true →
  GPIO.takes_nothing cb = true →
  GPIO.body cb (Some c) w = (Some (TypeError msg), w1) →
  GPIO.simulate_edge c s w
  = ((GPIO.body cb None w1).1, (GPIO.body cb None w1).2, [Some c; None]).
Proof.
  intros Hcb Htrue H1 H0 Hb. unfold GPIO.simulate_edge, GPIO.call_callback.
  rewrite Hcb, Htrue, H1, Hb, H0. by destruct (GPIO.body cb None w1).
Qed.

End GPIO_facts.

(** C5.  [simulate_edge] is meant to run the registered callback once.  A
    callback that accepts both call shapes and raises [TypeError] from its
    body is run twice: the handler that retries without the argument takes
    the body's own [TypeError] for a signature mismatch. *)
Theorem C5_simulate_edge_runs_raising_callback_twice :
  let s := GPIO.add_event_detect 17 GPIO.FALLING Sample.optional_param_raising None
             GPIO.initial in
  GPIO.simulate_edge 17 s 0%nat
  = (Some (TypeError "bad operand"), 2%nat, [Some 17; None]).
Proof. vm_compute. reflexivity. Qed.

(** C10.  [setup] stores its [initial] argument as given, so a read can
    return a value that is neither level; [output] maps every value to a
    level. *)
Theorem C10_setup_stores_initial_unnormalised :
  GPIO.input 17 (GPIO.run_ops [GPIO.Setup 17 GPIO.OUT None (Some 7)]
                   (GPIO.initial (W:=unit))) = 7
  ∧ 7 ≠ GPIO.HIGH ∧ 7 ≠ GPIO.LOW
  ∧ GPIO.input 17 (GPIO.run_ops [GPIO.Write 17 7] (GPIO.initial (W:=unit))) = GPIO.HIGH.
Proof. vm_compute. by repeat split. Qed.

(** ** Watcher *)

Section Watcher_facts.
Import RepoWatcher.
Context {E : Elapsed}.
Implicit Types (s : loop_state) (t : tick) (ticks pre post : list tick).

Lemma append_all_eq s (es : list event) :
  append_all es s
  = LoopState (_changed s ++ (path <$> es)) (last_flush s) (delivered s) (lost s).
Proof.
  unfold append_all. revert s. induction es as [|e es IH]; intros s; simpl.
  - rewrite app_nil_r. by destruct s.
  - rewrite IH. simpl. by rewrite <- app_assoc.
Qed.

Lemma events_app ticks1 ticks2 :
  events (ticks1 ++ ticks2) = events ticks1 ++ events ticks2.
Proof. unfold events. apply bind_app. Qed.

Lemma events_cons t ticks :
  events (t :: ticks) = (arrived t ++ raced t) ++ events ticks.
Proof. reflexivity. Qed.

Lemma loop_app debounce s ticks1 ticks2 :
  _debounce_loop debounce s (ticks1 ++ ticks2)
  = _debounce_loop debounce (_debounce_loop debounce s ticks1) ticks2.
Proof. apply foldl_app. Qed.

Lemma loop_cons debounce s t ticks :
  _debounce_loop debounce s (t :: ticks)
  = _debounce_loop debounce (iteration debounce s t) ticks.
Proof. reflexivity. Qed.

Lemma nonempty_spec {A} (l : list A) : nonempty l = false ↔ l = [].
Proof. by destruct l. Qed.

Lemma nonempty_app_fmap {A B} (l1 : list A) (f : B → A) (l2 : list B) :
  nonempty (l1 ++ (f <$> l2)) = nonempty l1 || nonempty l2.
Proof. by destruct l1, l2. Qed.

(** An iteration either leaves the buffer to grow or flushes what it
    read; which of the two is fixed by the buffer and the clock, except
    when exactly [debounce] has elapsed. *)
Lemma iteration_cases debounce s t :
  let read := _changed s ++ (path <$> arrived t) in
  (iteration debounce s t
   = LoopState (read ++ (path <$> raced t)) (last_flush s) (delivered s) (lost s)
   ∧ (read = [] ∨ now t - last_flush s ≤ debounce))
  ∨ (iteration debounce s t
     = LoopState [] (now t) (delivered s ++ [list_to_set read])
         (lost s ++ (path <$> raced t))
     ∧ read ≠ [] ∧ debounce ≤ now t - last_flush s).
Proof.
  intros read. unfold iteration. rewrite append_all_eq. simpl. fold read.
  case_bool_decide as H1; simpl.
  - destruct (elapsed_ge (now t) (last_flush s) debounce) eqn:Hge.
    + right. split_and!; [done..|].
      destruct (decide (now t - last_flush s < debounce)) as [Hlt|]; [|lia].
      rewrite elapsed_early in Hge by done. discriminate.
    + left. rewrite append_all_eq. simpl. split; [done|]. right.
      destruct (decide (debounce < now t - last_flush s)) as [Hlt|]; [|lia].
      rewrite elapsed_late in Hge by done. discriminate.
  - left. rewrite append_all_eq. simpl. split; [done|]. left.
    destruct read; [done|]. by destruct H1.
Qed.

Lemma iteration_holds debounce s t :
  nonempty (_changed s) || nonempty (arrived t) = false
  ∨ now t - last_flush s < debounce →
  iteration debounce s t
  = LoopState (_changed s ++ (path <$> (arrived t ++ raced t))) (last_flush s)
      (delivered s) (lost s).
Proof.
  intros Hq. rewrite fmap_app, app_assoc.
  destruct (iteration_cases debounce s t) as [[Hs _]|[_ [Hne Hd]]]; [done|].
  destruct Hq as [Hq|Hq]; [|lia].
  rewrite <- (nonempty_app_fmap _ path), nonempty_spec in Hq. done.
Qed.

Lemma iteration_flushes debounce s t :
  _changed s ++ (path <$> arrived t) ≠ [] →
  debounce < now t - last_flush s →
  iteration debounce s t
  = LoopState [] (now t)
      (delivered s ++ [list_to_set (_changed s ++ (path <$> arrived t))])
      (lost s ++ (path <$> raced t)).
Proof.
  intros Hne Hd.
  destruct (iteration_cases debounce s t) as [[_ [Hq|Hq]]|[Hs _]]; [done|lia|done].
Qed.

(** Polls that cannot flush only let the buffer grow. *)
Lemma loop_holds_back debounce pre s :
  holds_back debounce (last_flush s) (nonempty (_changed s)) pre →
  _debounce_loop debounce s pre
  = LoopState (_changed s ++ (path <$> events pre)) (last_flush s)
      (delivered s) (lost s).
Proof.
  revert s. induction pre as [|t pre IH]; intros s Hq.
  - simpl. rewrite app_nil_r. by destruct s.
  - destruct Hq as [Ht Hpre]. rewrite loop_cons, iteration_holds by done.
    rewrite IH; cbn [_changed last_flush delivered lost].
    + rewrite events_cons, (fmap_app path (arrived t ++ raced t)).
      by rewrite <- app_assoc.
    + rewrite nonempty_app_fmap.
      replace (nonempty (arrived t ++ raced t))
        with (nonempty (arrived t) || nonempty (raced t))
        by (by destruct (arrived t), (raced t)).
      by rewrite orb_assoc.
Qed.

(** One flush window: its closing poll delivers, in one payload,
    everything appended since the window began. *)
Lemma loop_window debounce (x : window) s :
  _changed s = [] →
  holds_back debounce (last_flush s) false x.1 →
  debounce < now x.2 - last_flush s →
  events x.1 ++ arrived x.2 ≠ [] →
  _debounce_loop debounce s (window_ticks x)
  = LoopState [] (now x.2) (delivered s ++ [heard x])
      (lost s ++ (path <$> raced x.2)).
Proof.
  intros Hs Hpre Ht Hne. unfold window_ticks.
  rewrite loop_app.
  rewrite (loop_holds_back debounce x.1 s) by (rewrite Hs; exact Hpre).
  rewrite Hs. cbn [app]. rewrite loop_cons. cbn [_debounce_loop foldl].
  rewrite iteration_flushes; cbn [_changed last_flush delivered lost].
  - unfold heard. by rewrite fmap_app.
  - rewrite <- fmap_app. by destruct (events x.1 ++ arrived x.2).
  - done.
Qed.

Lemma loop_windows debounce (xs : list window) tail s :
  _changed s = [] →
  windows debounce (last_flush s) xs tail →
  let s' := _debounce_loop debounce s ((xs ≫= window_ticks) ++ tail) in
  delivered s' = delivered s ++ (heard <$> xs)
  ∧ _changed s' = path <$> events tail
  ∧ lost s' = lost s ++ (xs ≫= fun x => path <$> raced x.2).
Proof.
  revert s. induction xs as [|x xs IH]; intros s Hs Hw; cbn zeta.
  - cbn [mbind list_bind app fmap list_fmap]. simpl in Hw.
    rewrite (loop_holds_back debounce tail s) by (rewrite Hs; exact Hw).
    cbn [_changed last_flush delivered lost]. by rewrite Hs, !app_nil_r.
  - destruct Hw as (Hpre & Ht & Hne & Hrest).
    rewrite bind_cons, <- app_assoc, loop_app, loop_window by done.
    edestruct (IH (LoopState [] (now x.2) (delivered s ++ [heard x])
                     (lost s ++ (path <$> raced x.2)))) as (H1 & H2 & H3);
      [done|exact Hrest|].
    cbn zeta in H1, H2, H3. rewrite H1, H2, H3.
    cbn [_changed last_flush delivered lost].
    rewrite fmap_cons, bind_cons. by rewrite <- !app_assoc.
Qed.

End Watcher_facts.

(** C4, refuted as stated: two edits 150 ms apart, with a 200 ms debounce,
    are delivered in two callbacks, because a poll at which more than
    200 ms have elapsed since the start falls between them. *)
Lemma C4_close_events_split_across_callbacks :
  RepoWatcher.schedule_from 0 Sample.two_edits
  ∧ RepoWatcher.close_arrivals 200 (RepoWatcher.events Sample.two_edits)
  ∧ RepoWatcher.pairwise_close 200 (RepoWatcher.events Sample.two_edits)
  ∧ RepoWatcher.settles 200 Sample.two_edits
  ∧ RepoWatcher.delivered
      (RepoWatcher._debounce_loop (E:=RepoWatcher.exact) 200
         (RepoWatcher.started 0) Sample.two_edits)
    = [ {["config/menu.xml"]}; {["config/settings.xml"]} ].
Proof.
  split_and!.
  - simpl. repeat split; try lia; repeat constructor; simpl; lia.
  - simpl. lia.
  - intros e1 e2 H1 H2. simpl in H1, H2.
    repeat match goal with
           | H : _ ∈ _ :: _ |- _ => apply elem_of_cons in H; destruct H as [->|H]
           | H : _ ∈ [] |- _ => by apply elem_of_nil in H
           end; simpl; lia.
  - eexists. split; [reflexivity|]. repeat constructor; simpl; lia.
  - vm_compute. reflexivity.
Qed.

(** C4, as the loop implements it.  Cut a run into flush windows: each is
    a stretch of polls that find the buffer empty or find that less than
    the debounce interval has elapsed since the previous flush (or since
    the start), closed by a poll that finds the buffer non-empty with more
    than the debounce interval elapsed.  Then the loop makes exactly one
    callback per window, at its closing poll, with the set of the paths
    appended during the window up to that poll's copy of the buffer; the
    polls after the last window make no callback and leave their events
    pending; and the paths appended between the copy and the clear of a
    closing poll are dropped. *)
Theorem C4_one_callback_per_flush_window {E : RepoWatcher.Elapsed}
    (debounce t0 : Z) (xs : list RepoWatcher.window) (tail : list RepoWatcher.tick) :
  RepoWatcher.windows debounce t0 xs tail →
  let s := RepoWatcher._debounce_loop debounce (RepoWatcher.started t0)
             ((xs ≫= RepoWatcher.window_ticks) ++ tail) in
  RepoWatcher.delivered s = RepoWatcher.heard <$> xs
  ∧ RepoWatcher._changed s = RepoWatcher.path <$> RepoWatcher.events tail
  ∧ RepoWatcher.lost s
    = xs ≫= (fun x => RepoWatcher.path <$> RepoWatcher.raced x.2).
Proof.
  intros Hw. by apply (loop_windows debounce xs tail (RepoWatcher.started t0)).
Qed.

Lemma C4_one_callback_per_flush_window_witness :
  let s := RepoWatcher._debounce_loop (E:=RepoWatcher.exact) 200
             (RepoWatcher.started 0)
             (([Sample.idle_then_burst; Sample.follow_up]
               ≫= RepoWatcher.window_ticks) ++ Sample.pending_tail) in
  RepoWatcher.delivered s
  = [ {["config/menu.xml"; "config/settings.xml"]};
      {["fonts/a.ttf"; "config/menu.xml"]} ]
  ∧ RepoWatcher._changed s = ["config/menu.xml"]
  ∧ RepoWatcher.lost s = ["config/late.xml"].
Proof.
  pose proof (C4_one_callback_per_flush_window (E:=RepoWatcher.exact) 200 0
                [Sample.idle_then_burst; Sample.follow_up] Sample.pending_tail)
    as Hw.
  cbn zeta in *. destruct Hw as (H1 & H2 & H3).
  - simpl. repeat split; first [by left | right; lia | discriminate | lia].
  - rewrite H1, H2, H3. split_and!; vm_compute; reflexivity.
Defined.

(** ** Bridge: what each method leaves alone *)

(** Methods that reach the world only by calling hosted code. *)

Section Stability_core.
Import MenuLCDBridge.
Local Open Scope py_scope.
Context {world : Type} `{!Host world}.
Implicit Types (s : st world).
Variable R : relation (st world).
Context `{!Core R}.
Hypothesis R_print : admits_print R.
Hypothesis R_instance : admits R set_instance.
Hypothesis R_native_size : admits R set_native_size.
Hypothesis R_last_frame : admits R set_last_frame.
Hypothesis R_created_ts : admits R set_created_ts.
Hypothesis R_profile : admits R set_profile.

Lemma stable_ret {A} (a : A) : stable R (ret a).
Proof. intros s. apply basic_refl. Qed.

Lemma stable_raise {A} e : stable R (raise (A:=A) e).
Proof. intros s. apply basic_refl. Qed.

Lemma stable_bind {A B} (m : M world A) (k : A → M world B) :
  stable R m → (∀ a, stable R (k a)) → stable R (bind m k).
Proof.
  intros Hm Hk s. unfold bind. specialize (Hm s).
  destruct (m s) as [[e|a] s1]; simpl in *; [done|].
  eapply basic_trans; [exact Hm | apply Hk].
Qed.

Lemma stable_attempt {A} (m : M world A) : stable R m → stable R (attempt m).
Proof. intros Hm s. unfold attempt. specialize (Hm s). by destruct (m s). Qed.

Lemma stable_finally {A} (m : M world A) fin :
  stable R m → stable R fin → stable R (finally m fin).
Proof.
  intros Hm Hf s. unfold finally. specialize (Hm s).
  destruct (m s) as [r s1]; simpl in *. specialize (Hf s1).
  destruct (fin s1) as [[e|[]] s2]; simpl in *; by eapply basic_trans.
Qed.

Lemma stable_get_self : stable R get_self.
Proof. intros s. apply basic_refl. Qed.

Lemma stable_ask {A} (f : world → A) : stable R (ask f).
Proof. intros s. apply basic_refl. Qed.

Lemma stable_logger l : stable R (logger l).
Proof. intros s. apply basic_logger. Qed.

Lemma stable_record_call ev : stable R (record_call ev).
Proof. intros s. apply basic_record. Qed.

Lemma stable_print l : stable R (print l).
Proof. intros s. apply R_print. Qed.

Lemma stable_invoke c args : stable R (act (invoke c args)).
Proof.
  intros s. unfold act. pose proof (basic_invoke s c args) as H1.
  by destruct (invoke c args (w s)).
Qed.

Lemma stable_modify {X} (set : X → Bridge → Bridge) x :
  admits R set → stable R (modify_self (set x)).
Proof. intros Hset s. apply Hset. Qed.

Ltac frame_step :=
  match goal with
  | |- stable _ (bind _ _) => apply stable_bind; [|intros ?]
  | |- stable _ (ret _) => apply stable_ret
  | |- stable _ (raise _) => apply stable_raise
  | |- stable _ (attempt _) => apply stable_attempt
  | |- stable _ (finally _ _) => apply stable_finally
  | |- stable _ get_self => apply stable_get_self
  | |- stable _ (ask _) => apply stable_ask
  | |- stable _ (logger _) => apply stable_logger
  | |- stable _ (print _) => apply stable_print
  | |- stable _ (record_call _) => apply stable_record_call
  | |- stable _ (act (invoke _ _)) => apply stable_invoke
  | |- stable _ (modify_self (_ _)) => apply stable_modify; assumption
  | |- stable _ (match ?x with _ => _ end) => destruct x
  | |- stable _ (let _ := _ in _) => cbv zeta
  | |- stable _ _ => assumption
  end.
Ltac frame_auto := repeat frame_step.

Lemma stable_getattr o name : stable R (getattr o name).
Proof. unfold getattr. frame_auto. Qed.

Lemma stable_getattr_strict o name : stable R (getattr_strict o name).
Proof. unfold getattr_strict. frame_auto. Qed.

Lemma stable_call name f args : stable R (call name f args).
Proof. unfold call. frame_auto. Qed.

Lemma stable_push_error msg : stable R (_push_error msg).
Proof.
  unfold _push_error. apply stable_bind; [|intros; apply stable_logger].
  intros s. apply basic_errors.
Qed.

Lemma stable_native_size : stable R native_size.
Proof. unfold native_size. frame_auto. Qed.

Lemma stable_pop_errors : stable R pop_errors.
Proof.
  unfold pop_errors. frame_auto. intros s. apply basic_errors.
Qed.

Lemma stable_extract_by_name inst names : stable R (extract_by_name inst names).
Proof.
  induction names as [|name rest IH]; simpl; [apply stable_ret|].
  apply stable_bind; [apply stable_getattr|intros obj].
  destruct (callable obj).
  - apply stable_bind; [apply stable_attempt, stable_call|intros r].
    frame_auto.
  - frame_auto.
Qed.

Lemma stable_scan_vars o : stable R (scan_vars o).
Proof. unfold scan_vars. frame_auto. Qed.

Lemma stable_lcd_by_name lcd names : stable R (lcd_by_name lcd names).
Proof.
  induction names as [|name rest IH]; simpl; [apply stable_ret|].
  apply stable_bind; [apply stable_getattr|intros obj]. frame_auto.
Qed.

Lemma stable_extract_frame inst : stable R (_extract_frame inst).
Proof.
  unfold _extract_frame.
  apply stable_bind; [apply stable_extract_by_name|intros [f|]]; [frame_auto|].
  apply stable_bind; [apply stable_scan_vars|intros [f|]]; [frame_auto|].
  apply stable_bind; [apply stable_getattr|intros lcd].
  destruct (bool_decide (lcd = VNone)); [frame_auto|].
  apply stable_bind; [apply stable_lcd_by_name|intros [f|]]; [frame_auto|].
  apply stable_scan_vars.
Qed.

Lemma stable_get_frame : stable R get_frame.
Proof.
  unfold get_frame. apply stable_bind.
  - apply stable_attempt. apply stable_bind; [frame_auto|intros b].
    apply stable_bind; [apply stable_extract_frame|intros fr].
    frame_auto.
  - intros [e|res]; [|frame_auto].
    apply stable_bind; [apply stable_push_error|intros]. frame_auto.
Qed.

Lemma stable_step_loop o label names : stable R (step_loop o label names).
Proof.
  induction names as [|name rest IH]; simpl; [apply stable_ret|].
  apply stable_bind; [apply stable_getattr|intros meth].
  destruct (callable meth); [|done].
  apply stable_bind; [apply stable_attempt, stable_call|intros [e|v]].
  - apply stable_bind; [apply stable_push_error|done].
  - apply stable_ret.
Qed.

Lemma stable_step : stable R step.
Proof.
  unfold step. apply stable_bind; [frame_auto|intros b].
  apply stable_bind; [frame_auto|intros t].
  destruct (negb t); [frame_auto|].
  apply stable_bind.
  { apply stable_bind; [frame_auto|intros]. apply stable_step_loop. }
  intros [|]; [frame_auto|].
  apply stable_bind; [frame_auto|intros b'].
  apply stable_bind; [apply stable_getattr|intros lcd].
  destruct (bool_decide (lcd = VNone)); [frame_auto|].
  apply stable_bind; [apply stable_step_loop|intros]. frame_auto.
Qed.

Lemma stable_call_candidates names args swallow :
  stable R (call_candidates names args swallow).
Proof.
  induction names as [|name rest IH]; simpl; [apply stable_ret|].
  apply stable_bind; [frame_auto|intros b].
  apply stable_bind; [apply stable_getattr|intros f].
  destruct (callable f); [|done].
  apply stable_bind; [apply stable_attempt, stable_call|intros [e|v]].
  - apply stable_bind; [apply stable_push_error|intros].
    destruct swallow; [done|apply stable_raise].
  - apply stable_ret.
Qed.

Lemma stable_call_if_exists names args swallow :
  stable R (_call_if_exists names args swallow).
Proof.
  unfold _call_if_exists.
  repeat first
    [ apply stable_call_candidates | apply stable_getattr | apply stable_call
    | apply stable_push_error | frame_step ].
Qed.

Lemma stable_resolve prim args shown fbs :
  stable R (resolve prim args shown fbs).
Proof.
  unfold resolve.
  repeat first
    [ apply stable_call_if_exists | apply stable_getattr | apply stable_call
    | apply stable_push_error | frame_step ].
Qed.

Lemma stable_navigate line prim args shown fbs :
  stable R (navigate line prim args shown fbs).
Proof.
  unfold navigate. apply stable_bind; [apply stable_print|intros].
  apply stable_resolve.
Qed.

Lemma stable_perform a : stable R (perform a).
Proof. destruct a; apply stable_navigate. Qed.

Lemma stable_repeat_n n (m : M world unit) : stable R m → stable R (repeat_n n m).
Proof.
  intros Hm. induction n as [|n IH]; simpl; [apply stable_ret|].
  by apply stable_bind.
Qed.

Lemma stable_action_home : stable R action_home.
Proof.
  unfold action_home.
  repeat first
    [ apply stable_call_if_exists | apply stable_repeat_n
    | apply (stable_perform Back) | frame_step ].
Qed.

Lemma stable_action_encoder delta : stable R (action_encoder delta).
Proof.
  unfold action_encoder.
  repeat first
    [ apply stable_call_if_exists | apply stable_repeat_n
    | apply (stable_perform Down) | apply (stable_perform Up) | frame_step ].
Qed.

Lemma stable_run_initializer CI args : stable R (run_initializer CI args).
Proof.
  unfold run_initializer.
  repeat first [ apply stable_call | apply stable_push_error | frame_step ].
Qed.

Lemma stable_learn_native_size : stable R learn_native_size.
Proof.
  unfold learn_native_size.
  repeat first
    [ apply stable_step | apply stable_extract_frame | frame_step ].
Qed.

Lemma stable_adopt ci : stable R (adopt ci).
Proof.
  unfold adopt.
  repeat first
    [ apply stable_getattr_strict | apply stable_learn_native_size
    | frame_step ].
Qed.

(** The operations that do not reconstruct. *)
Lemma stable_run_op_quiet o s :
  BridgeFrames.reconstructs o = false → R s (run_op o s).2.
Proof.
  intros Ho. destruct o; try discriminate Ho; unfold run_op; cbn [snd].
  - apply stable_native_size.
  - pose proof (stable_get_frame s) as H1. by destruct (get_frame s).
  - apply stable_step.
  - apply stable_perform.
  - apply stable_action_home.
  - apply stable_action_encoder.
  - apply stable_pop_errors.
  - simpl in Ho. subst reload_flag. unfold set_display_profile.
    destruct (negb (supported_profile profile)); [apply basic_refl|].
    apply (stable_bind (modify_self (set_profile profile)) (fun _ => ret tt));
      [by apply stable_modify | intros; apply stable_ret].
Qed.

Lemma stable_run_ops_quiet os s :
  Forall (fun o => BridgeFrames.reconstructs o = false) os →
  R s (run_ops os s).2.
Proof.
  revert s. induction os as [|o os IH]; intros s Hos; simpl; [apply basic_refl|].
  inversion Hos as [|? ? Ho Hos']; subst.
  pose proof (stable_run_op_quiet o s Ho) as H1. destruct (run_op o s) as [f s1].
  specialize (IH s1 Hos'). destruct (run_ops os s1) as [fs s2]. simpl in *.
  by eapply basic_trans.
Qed.

End Stability_core.

(** Reconstruction, and with it every operation. *)

Section Stability.
Import MenuLCDBridge.
Local Open Scope py_scope.
Context {world : Type} `{!Host world}.
Implicit Types (s : st world).
Variable R : relation (st world).
Context `{!Basic R}.
Hypothesis R_print : admits_print R.
Hypothesis R_menulcd_module : admits R set_menulcd_module.
Hypothesis R_instance : admits R set_instance.
Hypothesis R_native_size : admits R set_native_size.
Hypothesis R_last_frame : admits R set_last_frame.
Hypothesis R_created_ts : admits R set_created_ts.
Hypothesis R_repo_path : admits R set_repo_path.
Hypothesis R_profile : admits R set_profile.

Lemma stable_setattr o n v : stable R (act (setattr o n v)).
Proof.
  intros s. unfold act. pose proof (basic_setattr s o n v) as H1.
  by destruct (setattr o n v (w s)).
Qed.

Lemma stable_importlib_reload md : stable R (act (importlib_reload md)).
Proof.
  intros s. unfold act. pose proof (basic_reload s md) as H1.
  by destruct (importlib_reload md (w s)).
Qed.

Lemma stable_import_module n : stable R (act (import_module n)).
Proof.
  intros s. unfold act. pose proof (basic_import s n) as H1.
  by destruct (import_module n (w s)).
Qed.

Lemma stable_chdir p : stable R (act (chdir p)).
Proof.
  intros s. unfold act. pose proof (basic_chdir s p) as H1.
  by destruct (chdir p (w s)).
Qed.

Lemma stable_set_sys_module n v : stable R (update_world (set_sys_module n v)).
Proof. intros s. apply basic_sys_module. Qed.

Lemma stable_set_sys_path l : stable R (update_world (set_sys_path l)).
Proof. intros s. apply basic_sys_path. Qed.

Ltac frame_step :=
  match goal with
  | |- stable _ (bind _ _) => apply (stable_bind R); [|intros ?]
  | |- stable _ (ret _) => apply (stable_ret R)
  | |- stable _ (raise _) => apply (stable_raise R)
  | |- stable _ (attempt _) => apply (stable_attempt R)
  | |- stable _ (finally _ _) => apply (stable_finally R)
  | |- stable _ get_self => apply (stable_get_self R)
  | |- stable _ (ask _) => apply (stable_ask R)
  | |- stable _ (logger _) => apply (stable_logger R)
  | |- stable _ (print _) => by apply (stable_print R)
  | |- stable _ (record_call _) => apply (stable_record_call R)
  | |- stable _ (act (invoke _ _)) => apply (stable_invoke R)
  | |- stable _ (act (setattr _ _ _)) => apply stable_setattr
  | |- stable _ (act (importlib_reload _)) => apply stable_importlib_reload
  | |- stable _ (act (import_module _)) => apply stable_import_module
  | |- stable _ (act (chdir _)) => apply stable_chdir
  | |- stable _ (update_world (set_sys_module _ _)) => apply stable_set_sys_module
  | |- stable _ (update_world (set_sys_path _)) => apply stable_set_sys_path
  | |- stable _ (modify_self (_ _)) => apply (stable_modify R); assumption
  | |- stable _ (match ?x with _ => _ end) => destruct x
  | |- stable _ (let _ := _ in _) => cbv zeta
  | |- stable _ _ => assumption
  end.
Ltac frame_auto := repeat frame_step.

Lemma stable_install_mido_stub : stable R _install_mido_stub.
Proof. unfold _install_mido_stub. frame_auto. Qed.

Lemma stable_reload_module name : stable R (_reload name).
Proof. unfold _reload. frame_auto. Qed.

Lemma stable_locate_initializer : stable R locate_initializer.
Proof.
  unfold locate_initializer.
  repeat first
    [ apply stable_reload_module | apply (stable_getattr R)
    | apply (stable_getattr_strict R) | apply (stable_call R) | frame_step ].
Qed.

Lemma stable_build_initializer : stable R build_initializer.
Proof.
  unfold build_initializer.
  apply (stable_bind R); [apply stable_locate_initializer|intros p].
  apply (stable_run_initializer R).
Qed.

Lemma stable_enter_repo : stable R enter_repo.
Proof.
  unfold enter_repo.
  repeat first [ apply stable_install_mido_stub | frame_step ].
Qed.

(** Reconstruction, for a relation that [adopt] is known to stay in. *)
Lemma stable_import_and_create_with :
  (∀ ci, stable R (adopt ci)) → stable R _import_and_create.
Proof.
  intros Hadopt. unfold _import_and_create, create_in_repo.
  repeat first
    [ apply stable_enter_repo | apply stable_build_initializer
    | apply Hadopt | frame_step ].
Qed.

Lemma stable_reload_with : (∀ ci, stable R (adopt ci)) → stable R reload.
Proof.
  intros Hadopt. unfold reload.
  repeat first
    [ apply (stable_import_and_create_with Hadopt) | apply (stable_push_error R)
    | frame_step ].
Qed.

Lemma stable_import_and_create : stable R _import_and_create.
Proof. apply stable_import_and_create_with. intros ci. by apply (stable_adopt R). Qed.

Lemma stable_reload : stable R reload.
Proof. apply stable_reload_with. intros ci. by apply (stable_adopt R). Qed.

Lemma stable_set_repo p : stable R (set_repo p).
Proof.
  unfold set_repo. repeat first [ apply stable_reload | frame_step ].
Qed.

Lemma stable_set_display_profile p r : stable R (set_display_profile p r).
Proof.
  unfold set_display_profile. repeat first [ apply stable_reload | frame_step ].
Qed.

Lemma stable_run_op o s : R s (run_op o s).2.
Proof.
  destruct o; simpl.
  - apply (stable_native_size R).
  - pose proof (stable_get_frame R R_last_frame s) as H1. by destruct (get_frame s).
  - apply (stable_step R).
  - apply stable_reload.
  - apply stable_set_repo.
  - by apply (stable_perform R).
  - by apply (stable_action_home R).
  - by apply (stable_action_encoder R).
  - apply (stable_pop_errors R).
  - apply stable_set_display_profile.
Qed.

Lemma stable_run_ops os s : R s (run_ops os s).2.
Proof.
  revert s. induction os as [|o os IH]; intros s; simpl; [apply basic_refl|].
  pose proof (stable_run_op o s) as H1. destruct (run_op o s) as [f s1].
  specialize (IH s1). destruct (run_ops os s1) as [fs s2]. simpl in *.
  by eapply basic_trans.
Qed.

End Stability.

(** ** Bridge: the relations in use *)

Section Relations.
Import MenuLCDBridge.
Context {world : Type} `{!Host world}.
Implicit Types (s : st world).

Global Instance keeps_last_frame_basic : Basic (keeps_last_frame (world:=world)).
Proof. split; [split|..]; unfold keeps_last_frame; intros; simpl; congruence. Qed.

Global Instance keeps_instance_basic : Basic (keeps_instance (world:=world)).
Proof. split; [split|..]; unfold keeps_instance; intros; simpl; congruence. Qed.

Global Instance keeps_stdout_basic : Basic (keeps_stdout (world:=world)).
Proof. split; [split|..]; unfold keeps_stdout; intros; simpl; congruence. Qed.

Global Instance extends_calls_basic : Basic (extends_calls (world:=world)).
Proof.
  split; [split|..]; unfold extends_calls; simpl.
  2: { intros s1 s2 s3 [m1 H1] [m2 H2]. exists (m1 ++ m2).
       rewrite H2, H1. by rewrite app_assoc. }
  all: intros; first [by exists []; rewrite app_nil_r | by eexists].
Qed.

Lemma maintains_basic (I : world → Prop) : host_preserves I → Basic (maintains I).
Proof.
  intros (Hinv & Hset & Hrel & Himp & Hch & Hmod & Hpath).
  split; [split|..]; unfold maintains; intros; simpl; auto.
Qed.

Lemma maintains_print (I : world → Prop) : admits_print (maintains I).
Proof. intros s l. unfold maintains. simpl. tauto. Qed.

Lemma maintains_admits {X} (I : world → Prop) (set : X → Bridge → Bridge) :
  admits (maintains I) set.
Proof. intros s x. unfold maintains. simpl. tauto. Qed.

(** A sequence of operations changes the world only through the hosted
    side and the runtime. *)
Lemma run_ops_maintains (I : world → Prop) os s :
  host_preserves I → I (w s) → I (w (run_ops os s).2).
Proof.
  intros HI. apply (@stable_run_ops _ _ (maintains I) (maintains_basic I HI));
    first [apply maintains_print | apply maintains_admits].
Qed.

Lemma maintains_core (I : world → Prop) :
  (∀ c args x, I x → I (invoke c args x).2) → Core (maintains I).
Proof. intros Hinv. split; unfold maintains; intros; simpl; auto. Qed.

(** Operations that do not reconstruct change the world only through
    calls into hosted code. *)
Lemma run_ops_quiet_maintains (I : world → Prop) os s :
  (∀ c args x, I x → I (invoke c args x).2) →
  Forall (fun o => BridgeFrames.reconstructs o = false) os →
  I (w s) → I (w (run_ops os s).2).
Proof.
  intros HI Hos.
  apply (@stable_run_ops_quiet _ _ (maintains I) (maintains_core I HI));
    first [apply maintains_print | apply maintains_admits | done].
Qed.

(** Only [get_frame] assigns [_last_frame]. *)
Lemma run_op_keeps_last_frame o s :
  o ≠ OpGetFrame → _last_frame (self (run_op o s).2) = _last_frame (self s).
Proof.
  intros Ho. destruct o; unfold run_op; cbn [snd].
  - apply (stable_native_size keeps_last_frame).
  - by destruct Ho.
  - apply (stable_step keeps_last_frame).
  - by apply (stable_reload keeps_last_frame).
  - by apply (stable_set_repo keeps_last_frame).
  - by apply (stable_perform keeps_last_frame).
  - by apply (stable_action_home keeps_last_frame).
  - by apply (stable_action_encoder keeps_last_frame).
  - apply (stable_pop_errors keeps_last_frame).
  - by apply (stable_set_display_profile keeps_last_frame).
Qed.

(** Construction leaves no frame behind. *)
Lemma init_last_frame repo profile w0 :
  _last_frame (self (__init__ repo profile w0).2) = None.
Proof.
  unfold __init__.
  by rewrite (stable_import_and_create keeps_last_frame).
Qed.

(** [get_frame] returns: the extracted frame when there is one, the
    retained frame otherwise; either way it is the retained frame
    afterwards. *)
Lemma get_frame_spec s :
  let r := match (_extract_frame (instance (self s)) s).1 with
           | inr (Some f) => Some f
           | _ => _last_frame (self s)
           end in
  (get_frame s).1 = inr r ∧ _last_frame (self (get_frame s).2) = r.
Proof.
  pose proof (stable_extract_frame keeps_last_frame (instance (self s)) s) as Hk.
  unfold keeps_last_frame in Hk.
  unfold get_frame, bind, attempt, get_self, ret, modify_self, _push_error,
    logger, bind. simpl.
  destruct (_extract_frame (instance (self s)) s) as [[e|[f|]] s1]; simpl in *;
    rewrite ?Hk; auto.
Qed.

Lemma run_op_last_frame o s :
  _last_frame (self (run_op o s).2)
  = match (run_op o s).1 with
    | Some f => Some f
    | None => _last_frame (self s)
    end.
Proof.
  assert (o = OpGetFrame ∨ o ≠ OpGetFrame) as [->|Ho]
    by (destruct o; (by left) || (by right)).
  - simpl. destruct (get_frame_spec s) as [H1 H2].
    destruct (get_frame s) as [r s1]; simpl in *. subst r. rewrite H2.
    destruct (_extract_frame (instance (self s)) s) as [[e|[f|]] s2]; simpl;
      try done; by destruct (_last_frame (self s)).
  - rewrite run_op_keeps_last_frame by done.
    by destruct o.
Qed.

(** After any sequence of operations the retained frame is the frame
    that [get_frame] returned last, or the one held at the start when it
    never returned one. *)
Lemma run_ops_last_frame os s :
  _last_frame (self (run_ops os s).2)
  = match last (run_ops os s).1 with
    | Some f => Some f
    | None => _last_frame (self s)
    end.
Proof.
  revert s. induction os as [|o os IH]; intros s; [done|]. simpl.
  pose proof (run_op_last_frame o s) as Ho.
  destruct (run_op o s) as [f s1]. specialize (IH s1).
  destruct (run_ops os s1) as [fs s2]. simpl in *. rewrite IH, Ho.
  rewrite last_app. destruct (last fs); [done|].
  by destruct f.
Qed.

End Relations.

(** C7.  An unsupported profile makes [set_display_profile] raise the
    configuration error and nothing else: the bridge object (profile and
    repository path included), the world, the log and the record of hosted
    calls are exactly as before, so no reload took place. *)
Theorem C7_invalid_profile_rejected_without_effect
    {world : Type} `{!MenuLCDBridge.Host world}
    (profile : option string) (reload_flag : bool) (s : MenuLCDBridge.st world) :
  MenuLCDBridge.supported_profile profile = false →
  MenuLCDBridge.set_display_profile profile reload_flag s
  = (inl (BridgeError "Invalid display profile (expected '1in44' or '1in3' or None)"), s).
Proof.
  intros Hp. unfold MenuLCDBridge.set_display_profile. by rewrite Hp.
Qed.

Lemma C7_invalid_profile_rejected_without_effect_witness :
  MenuLCDBridge.set_display_profile (Some "invalid") true
    (Sample.bridge_on (MenuLCDBridge.VObj 7) (Sample.repo Sample.drawing_menu []))
  = (inl (BridgeError "Invalid display profile (expected '1in44' or '1in3' or None)"),
     Sample.bridge_on (MenuLCDBridge.VObj 7) (Sample.repo Sample.drawing_menu [])).
Proof.
  apply (C7_invalid_profile_rejected_without_effect (Some "invalid") true).
  vm_compute. reflexivity.
Defined.

(** C8, refuted as stated: the construction extracts a frame from the
    hosted menu (the native size is read from it) but does not retain it.
    When the menu has stopped exposing its image by the first call of
    [get_frame], that call returns none, although a frame has been
    produced since construction. *)
Lemma C8_frame_of_construction_not_retained :
  let built := MenuLCDBridge.__init__ "/repo" None
                 (Sample.repo Sample.menu_losing_image []) in
  let s1 := (MenuLCDBridge.perform MenuLCDBridge.Back built.2).2 in
  built.1 = inr tt
  ∧ (MenuLCDBridge._extract_frame (MenuLCDBridge.VObj 7) built.2).1 = inr (Some 0%nat)
  ∧ MenuLCDBridge._native_size (MenuLCDBridge.self built.2)
    = MenuLCDBridge.image_size (MenuLCDBridge.w built.2) 0%nat
  ∧ MenuLCDBridge._last_frame (MenuLCDBridge.self built.2) = None
  ∧ (MenuLCDBridge.get_frame s1).1 = inr None.
Proof. vm_compute. repeat split. Qed.

(** C8, as the bridge implements it.  On a bridge that was constructed
    and then used in any way, [get_frame] returns (it never raises).  It
    returns the frame it extracts when extraction yields one; when
    extraction raises or yields nothing it returns the frame that
    [get_frame] returned last; and it returns none only when no call of
    [get_frame] has returned a frame since construction. *)
Theorem C8_get_frame_returns_last_good_frame
    {world : Type} `{!MenuLCDBridge.Host world}
    (repo : string) (profile : option string) (w0 : world)
    (s0 : MenuLCDBridge.st world) (os : list MenuLCDBridge.op) :
  MenuLCDBridge.__init__ repo profile w0 = (inr tt, s0) →
  let fs := (MenuLCDBridge.run_ops os s0).1 in
  let s := (MenuLCDBridge.run_ops os s0).2 in
  let extraction :=
    (MenuLCDBridge._extract_frame (MenuLCDBridge.instance (MenuLCDBridge.self s)) s).1 in
  ∃ r, (MenuLCDBridge.get_frame s).1 = inr r
       ∧ (∀ f, extraction = inr (Some f) → r = Some f)
       ∧ ((∀ f, extraction ≠ inr (Some f)) → r = last fs)
       ∧ (r = None → fs = []).
Proof.
  intros Hinit fs s extraction.
  pose proof (init_last_frame repo profile w0) as H0. rewrite Hinit in H0.
  simpl in H0.
  pose proof (run_ops_last_frame os s0) as Hl. rewrite H0 in Hl.
  fold s fs in Hl.
  assert (MenuLCDBridge._last_frame (MenuLCDBridge.self s) = last fs) as Hlast.
  { rewrite Hl. by destruct (last fs). }
  destruct (get_frame_spec s) as [Hr _]. fold extraction in Hr.
  eexists. split; [exact Hr|]. split_and!.
  - intros f ->. done.
  - intros Hno. rewrite Hlast.
    destruct extraction as [e|[f|]]; try done. by destruct (Hno f).
  - destruct extraction as [e|[f|]]; try done; rewrite Hlast;
      intros Hn; by apply last_None.
Qed.

(** The fallback at work: the menu exposes its image for one call of
    [get_frame] and then drops it; the next call extracts nothing and
    returns the frame of the first. *)
Lemma C8_get_frame_returns_last_good_frame_witness :
  let s0 := (MenuLCDBridge.__init__ "/repo" None
               (Sample.repo Sample.menu_losing_image [])).2 in
  let os := [MenuLCDBridge.OpGetFrame; MenuLCDBridge.OpAction MenuLCDBridge.Back] in
  let s := (MenuLCDBridge.run_ops os s0).2 in
  (MenuLCDBridge._extract_frame (MenuLCDBridge.instance (MenuLCDBridge.self s)) s).1
  = inr None
  ∧ (MenuLCDBridge.get_frame s).1 = inr (Some 0%nat).
Proof.
  intros s0 os s.
  assert ((MenuLCDBridge._extract_frame
             (MenuLCDBridge.instance (MenuLCDBridge.self s)) s).1 = inr None) as Hx
    by (vm_compute; reflexivity).
  split; [exact Hx|].
  destruct (C8_get_frame_returns_last_good_frame "/repo" None
              (Sample.repo Sample.menu_losing_image []) s0 os)
    as (r & Hr & _ & Hfall & _); [vm_compute; reflexivity|].
  cbn zeta in Hr, Hfall. fold s in Hr, Hfall.
  rewrite Hr, Hfall.
  - vm_compute. reflexivity.
  - intros f. rewrite Hx. discriminate.
Defined.



(** In the sample world the render method can be made to raise before it
    draws; then no hosted call changes a pixel. *)
Lemma sample_broken_render_keeps_pixels c args (x : Sample.hosted) :
  (1%nat ∈ Sample.failing x ∧ Sample.pix x = [0; 0]) →
  1%nat ∈ Sample.failing (MenuLCDBridge.invoke c args x).2
  ∧ Sample.pix (MenuLCDBridge.invoke c args x).2 = [0; 0].
Proof.
  intros [Hf Hx]. cbn [MenuLCDBridge.invoke Sample.hosted_host].
  unfold Sample.hosted_invoke. case_bool_decide as Hc; [done|].
  destruct c as [|c]; [done|]. destruct c as [|c]; [by destruct Hc|].
  do 103 (destruct c as [|c]; simpl; [done|]). done.
Qed.


(** ** Reload *)

Section Reload_facts.
Import MenuLCDBridge.
Local Open Scope py_scope.
Context {world : Type} `{!Host world}.
Implicit Types (s : st world).

(** [reload] returns when the reconstruction returns and re-raises what
    it raises. *)
Lemma reload_run s :
  reload s = match _import_and_create (announced s) with
             | (inr _, s1) => (inr tt, s1)
             | (inl e, s1) => (inl e, reported e s1)
             end.
Proof.
  unfold reload. unfold bind at 1. unfold logger at 1. unfold bind at 1.
  unfold attempt. fold (announced s).
  by destruct (_import_and_create (announced s)) as [[e|[]] s1].
Qed.

Lemma import_and_create_run s :
  _import_and_create s
  = match enter_repo s with
    | (inl e, s1) => (inl e, s1)
    | (inr old_cwd, s1) =>
        let '(r, s2) := create_in_repo s1 in
        match chdir old_cwd (w s2) with
        | (inr _, x) => (r, with_world x s2)
        | (inl e, x) => (inl e, with_world x s2)
        end
    end.
Proof.
  unfold _import_and_create. unfold bind at 1.
  destruct (enter_repo s) as [[e|old] s1]; [done|].
  unfold finally, act. destruct (create_in_repo s1) as [r s2].
  by destruct (chdir old (w s2)) as [[e|[]] x].
Qed.

Lemma create_in_repo_run s :
  create_in_repo s = match build_initializer s with
                     | (inl e, s1) => (inl e, s1)
                     | (inr ci, s1) => adopt ci s1
                     end.
Proof.
  unfold create_in_repo, bind. by destruct (build_initializer s) as [[e|ci] s1].
Qed.

(** [adopt] binds the [menu] of [ci] before anything else can fail, and
    fails without binding when [ci] has no [menu]. *)
Lemma adopt_instance ci s :
  instance (self (adopt ci s).2) = default (instance (self s)) (attr (w s) ci "menu").
Proof.
  unfold adopt, getattr_strict. unfold bind at 1. unfold bind at 1.
  unfold ask at 1.
  destruct (attr (w s) ci "menu") as [v|] eqn:E; [|done].
  unfold ret at 1. unfold bind at 1. unfold modify_self at 1.
  pose proof (stable_learn_native_size keeps_instance ltac:(done) ltac:(done)
                (St (set_instance v (self s)) (w s) (stdout s) (logged s) (calls s)))
    as Hk.
  unfold keeps_instance in Hk. by rewrite Hk.
Qed.

Lemma locate_initializer_missing s :
  path_exists (w s) (repo_path (self s) +:+ "/lib/menulcd.py") = false →
  locate_initializer s
  = (inl (BridgeError ("Missing file: " +:+ repo_path (self s) +:+ "/lib/menulcd.py")), s).
Proof.
  intros Hm. unfold locate_initializer.
  unfold bind at 1. unfold get_self at 1. cbv zeta.
  unfold bind at 1. unfold ask at 1. rewrite Hm.
  unfold bind at 1. reflexivity.
Qed.

Lemma build_initializer_missing s :
  path_exists (w s) (repo_path (self s) +:+ "/lib/menulcd.py") = false →
  build_initializer s
  = (inl (BridgeError ("Missing file: " +:+ repo_path (self s) +:+ "/lib/menulcd.py")), s).
Proof.
  intros Hm. unfold build_initializer. unfold bind at 1.
  by rewrite locate_initializer_missing.
Qed.

(** A raising initializer: the handler re-raises what it raised, after
    the diagnostic when the message names one of the fonts. *)
Lemma run_initializer_raises c args s e x :
  invoke c [args] (w s) = (inl e, x) →
  let fonts := contains "FreeSansBold.ttf" (str e)
               || contains "FreeMonoBold.ttf" (str e) in
  let note := "Missing fonts FreeSansBold.ttf / FreeMonoBold.ttf. "
              +:+ "Place them in <repo>/fonts or set PIANO_LED_FONTDIR." in
  run_initializer (VCallable c) args s
  = (inl e,
     St (if fonts then set_errors (errors (self s) ++ [note]) (self s) else self s)
        x (stdout s)
        (if fonts then logged s ++ [note] else logged s)
        (calls s ++ [("ComponentInitializer", [args])])).
Proof.
  intros Hc fonts note. unfold run_initializer. unfold bind at 1.
  unfold attempt, call. unfold bind at 1. unfold record_call at 1.
  unfold act. cbn [w self stdout logged calls]. rewrite Hc.
  fold fonts. fold note. unfold bind at 1.
  destruct fonts.
  - unfold _push_error. unfold bind at 1. unfold modify_self at 1.
    unfold logger at 1. reflexivity.
  - reflexivity.
Qed.

Lemma build_initializer_raises s c args s1 e x :
  locate_initializer s = (inr (VCallable c, args), s1) →
  invoke c [args] (w s1) = (inl e, x) →
  ∃ s2, build_initializer s = (inl e, s2) ∧ w s2 = x.
Proof.
  intros Hl Hc. unfold build_initializer. unfold bind at 1. rewrite Hl.
  cbn [fst snd]. rewrite (run_initializer_raises c args s1 e x Hc).
  eexists. split; reflexivity.
Qed.

(** What the instance is after a reconstruction that got as far as the
    [try]. *)
Lemma import_and_create_stages s old s1 :
  enter_repo s = (inr old, s1) →
  (∀ e s2, build_initializer s1 = (inl e, s2) →
     ∃ e' s', _import_and_create s = (inl e', s')
              ∧ instance (self s') = instance (self s)
              ∧ ((chdir old (w s2)).1 = inr tt → e' = e))
  ∧ (∀ ci s2 e s3, build_initializer s1 = (inr ci, s2) →
       adopt ci s2 = (inl e, s3) →
       ∃ e' s', _import_and_create s = (inl e', s')
                ∧ instance (self s')
                  = default (instance (self s)) (attr (w s2) ci "menu")
                ∧ ((chdir old (w s3)).1 = inr tt → e' = e))
  ∧ (∀ ci s2 s3 e x, build_initializer s1 = (inr ci, s2) →
       adopt ci s2 = (inr tt, s3) →
       chdir old (w s3) = (inl e, x) →
       ∃ s', _import_and_create s = (inl e, s')
             ∧ instance (self s')
               = default (instance (self s)) (attr (w s2) ci "menu")).
Proof.
  intros He.
  pose proof (stable_enter_repo keeps_instance s) as K1.
  rewrite He in K1. unfold keeps_instance in K1. cbn [snd] in K1.
  split_and!.
  - intros e s2 Hb.
    pose proof (stable_build_initializer keeps_instance ltac:(done) s1) as K2.
    rewrite Hb in K2. unfold keeps_instance in K2. cbn [snd] in K2.
    rewrite import_and_create_run, He, create_in_repo_run, Hb.
    destruct (chdir old (w s2)) as [[e'|[]] x]; eexists _, _;
      (split; [reflexivity|]); cbn [self with_world fst];
      (split; [congruence|]); [discriminate|done].
  - intros ci s2 e s3 Hb Ha.
    pose proof (stable_build_initializer keeps_instance ltac:(done) s1) as K2.
    rewrite Hb in K2. unfold keeps_instance in K2. cbn [snd] in K2.
    pose proof (adopt_instance ci s2) as K3. rewrite Ha in K3. cbn [snd] in K3.
    rewrite import_and_create_run, He, create_in_repo_run, Hb, Ha.
    destruct (chdir old (w s3)) as [[e'|[]] x]; eexists _, _;
      (split; [reflexivity|]); cbn [self with_world fst];
      (split; [congruence|]); [discriminate|done].
  - intros ci s2 s3 e x Hb Ha Hc.
    pose proof (stable_build_initializer keeps_instance ltac:(done) s1) as K2.
    rewrite Hb in K2. unfold keeps_instance in K2. cbn [snd] in K2.
    pose proof (adopt_instance ci s2) as K3. rewrite Ha in K3. cbn [snd] in K3.
    rewrite import_and_create_run, He, create_in_repo_run, Hb, Ha, Hc.
    eexists. split; [reflexivity|]. cbn [self with_world]. congruence.
Qed.

Lemma import_and_create_not_entered s e s1 :
  enter_repo s = (inl e, s1) →
  _import_and_create s = (inl e, s1) ∧ instance (self s1) = instance (self s).
Proof.
  intros He.
  pose proof (stable_enter_repo keeps_instance s) as K1.
  rewrite He in K1. rewrite import_and_create_run, He. done.
Qed.

End Reload_facts.




(** ** Action dispatch *)

Section Dispatch_facts.
Import MenuLCDBridge.
Context {world : Type} `{!Host world}.
Implicit Types (s : st world) (names fbs : list string) (ev : call_event).

Lemma filter_nil_Forall {A} (P : A → Prop) `{!∀ x, Decision (P x)} (l : list A) :
  filter P l = [] → Forall (fun x => ¬ P x) l.
Proof.
  induction l as [|x l IH]; [constructor|]. rewrite filter_cons.
  destruct (decide (P x)); [done|]. intros Hl. constructor; auto.
Qed.

Lemma getattr_run o name s :
  getattr o name s = (inr (default VNone (attr (w s) o name)), s).
Proof. reflexivity. Qed.

Lemma call_run name c args s :
  call name (VCallable c) args s
  = ((invoke c args (w s)).1,
     St (self s) (invoke c args (w s)).2 (stdout s) (logged s)
        (calls s ++ [(name, args)])).
Proof.
  unfold call, bind, record_call, act. simpl. by destruct (invoke c args (w s)).
Qed.

Lemma exposes_callable x inst name :
  exposes x inst name = true → ∃ c, attr x inst name = Some (VCallable c).
Proof.
  unfold exposes. destruct (attr x inst name) as [[]|]; simpl; try done. eauto.
Qed.

Lemma perform_eq a :
  ∃ shown, perform a
           = navigate (trace_line a) (primary a) (primary_args a) shown (fallbacks a).
Proof. destruct a; eexists; reflexivity. Qed.

(** *** Nothing exposed *)

Lemma call_candidates_unexposed names args swallow s :
  Forall (fun n => exposes (w s) (instance (self s)) n = false) names →
  call_candidates names args swallow s = (inr false, s).
Proof.
  induction names as [|n names IH]; intros Hn; [done|].
  inversion Hn as [|? ? H1 H2]; subst. cbn [call_candidates].
  unfold bind at 1. unfold get_self at 1. unfold bind at 1. rewrite getattr_run.
  unfold exposes in H1. rewrite H1. by apply IH.
Qed.

Lemma call_if_exists_unexposed names args swallow s :
  Forall (fun n => exposes (w s) (instance (self s)) n = false) names →
  exposes (w s) (instance (self s)) "handle_key" = false →
  _call_if_exists names args swallow s = (inr false, s).
Proof.
  intros Hn Hk. unfold _call_if_exists. unfold bind at 1.
  rewrite call_candidates_unexposed by done.
  unfold bind at 1. unfold get_self at 1. unfold bind at 1. rewrite getattr_run.
  unfold exposes in Hk. rewrite Hk. by destruct names.
Qed.

Lemma resolve_unexposed prim args shown fbs s :
  exposes (w s) (instance (self s)) prim = false →
  Forall (fun n => exposes (w s) (instance (self s)) n = false) fbs →
  exposes (w s) (instance (self s)) "handle_key" = false →
  resolve prim args shown fbs s = (inr tt, s).
Proof.
  intros Hp Hn Hk. unfold resolve.
  unfold bind at 1. unfold get_self at 1. unfold bind at 1. rewrite getattr_run.
  cbv zeta. unfold exposes in Hp. rewrite Hp.
  unfold bind at 1. by rewrite call_if_exists_unexposed.
Qed.

(** *** One step of each dispatch loop *)

Lemma push_error_run msg s :
  _push_error msg s
  = (inr tt, St (set_errors (errors (self s) ++ [msg]) (self s)) (w s) (stdout s)
                (logged s ++ [msg]) (calls s)).
Proof. reflexivity. Qed.

Lemma push_error_run_bind {A} msg (k : M world A) s :
  (_push_error msg ;; k)%py s
  = k (St (set_errors (errors (self s) ++ [msg]) (self s)) (w s) (stdout s)
          (logged s ++ [msg]) (calls s)).
Proof. reflexivity. Qed.

Lemma bind_ret_run {A} (m : M world A) s :
  (m ;; ret tt)%py s
  = (match (m s).1 with inr _ => inr tt | inl e => inl e end, (m s).2).
Proof. unfold bind, ret. by destruct (m s) as [[e|a] s1]. Qed.

Lemma call_candidates_skip n names args swallow s :
  exposes (w s) (instance (self s)) n = false →
  call_candidates (n :: names) args swallow s = call_candidates names args swallow s.
Proof.
  intros Hn. cbn [call_candidates].
  unfold bind at 1. unfold get_self at 1. unfold bind at 1. rewrite getattr_run.
  unfold exposes in Hn. by rewrite Hn.
Qed.

Lemma call_candidates_hit n names args swallow s c :
  attr (w s) (instance (self s)) n = Some (VCallable c) →
  call_candidates (n :: names) args swallow s
  = let s1 := St (self s) (invoke c args (w s)).2 (stdout s) (logged s)
                 (calls s ++ [(n, args)]) in
    match (invoke c args (w s)).1 with
    | inr _ => (inr true, s1)
    | inl e =>
        (_push_error (n +:+ " error: " +:+ str e) ;;
         if swallow then call_candidates names args swallow else raise e)%py s1
    end.
Proof.
  intros Hc. cbn [call_candidates].
  unfold bind at 1. unfold get_self at 1. unfold bind at 1. rewrite getattr_run.
  rewrite Hc. change (default VNone (Some (VCallable c))) with (VCallable c).
  cbn [callable]. unfold bind at 1. unfold attempt. rewrite call_run.
  cbv zeta. by destruct (invoke c args (w s)).1.
Qed.

Lemma call_if_exists_handler first names args swallow s c :
  Forall (fun n => exposes (w s) (instance (self s)) n = false) (first :: names) →
  attr (w s) (instance (self s)) "handle_key" = Some (VCallable c) →
  _call_if_exists (first :: names) args swallow s
  = let s1 := St (self s) (invoke c [VStr first] (w s)).2 (stdout s) (logged s)
                 (calls s ++ [("handle_key", [VStr first])]) in
    match (invoke c [VStr first] (w s)).1 with
    | inr _ => (inr true, s1)
    | inl e =>
        (_push_error ("handle_key error: " +:+ str e) ;;
         if swallow then ret false else raise e)%py s1
    end.
Proof.
  intros Hun Hc. unfold _call_if_exists. unfold bind at 1.
  rewrite call_candidates_unexposed by done.
  unfold bind at 1. unfold get_self at 1. unfold bind at 1. rewrite getattr_run.
  rewrite Hc. change (default VNone (Some (VCallable c))) with (VCallable c).
  cbn [callable]. unfold bind at 1. unfold attempt. rewrite call_run.
  cbv zeta. by destruct (invoke c [VStr first] (w s)).1.
Qed.

Lemma call_if_exists_found names args swallow s :
  (call_candidates names args swallow s).1 ≠ inr false →
  _call_if_exists names args swallow s
  = (match (call_candidates names args swallow s).1 with
     | inr _ => inr true
     | inl e => inl e
     end, (call_candidates names args swallow s).2).
Proof.
  intros Hne. unfold _call_if_exists. unfold bind at 1.
  by destruct (call_candidates names args swallow s) as [[e|[|]] s2].
Qed.

Lemma resolve_skip prim args shown fbs s :
  exposes (w s) (instance (self s)) prim = false →
  resolve prim args shown fbs s
  = (_call_if_exists fbs [] false ;; ret tt)%py s.
Proof.
  intros Hp. unfold resolve.
  unfold bind at 1. unfold get_self at 1. unfold bind at 1. rewrite getattr_run.
  cbv zeta. unfold exposes in Hp. by rewrite Hp.
Qed.

Lemma resolve_hit prim args shown fbs s c :
  attr (w s) (instance (self s)) prim = Some (VCallable c) →
  resolve prim args shown fbs s
  = let s1 := St (self s) (invoke c args (w s)).2 (stdout s) (logged s)
                 (calls s ++ [(prim, args)]) in
    match (invoke c args (w s)).1 with
    | inr _ => (inr tt, s1)
    | inl e =>
        (_push_error (shown +:+ " error: " +:+ str e) ;;
         (_call_if_exists fbs [] false ;; ret tt))%py s1
    end.
Proof.
  intros Hc. unfold resolve.
  unfold bind at 1. unfold get_self at 1. unfold bind at 1. rewrite getattr_run.
  cbv zeta. rewrite Hc.
  change (default VNone (Some (VCallable c))) with (VCallable c).
  cbn [callable]. unfold bind at 1. unfold attempt. rewrite call_run.
  by destruct (invoke c args (w s)).1.
Qed.

(** *** Something exposed: the generic fallbacks *)

(** The loop over the fallback names, run without swallowing, calls the
    first exposed name and nothing else, and never falls through. *)
Lemma call_candidates_first names args s ev rest :
  filter (fun ev => exposes (w s) (instance (self s)) ev.1 = true)
    ((fun n => (n, args)) <$> names) = ev :: rest →
  ∃ c, attr (w s) (instance (self s)) ev.1 = Some (VCallable c)
       ∧ ev.2 = args
       ∧ calls (call_candidates names args false s).2 = calls s ++ [ev]
       ∧ (call_candidates names args false s).1 ≠ inr false
       ∧ (∀ v x, invoke c args (w s) = (inr v, x) →
            (call_candidates names args false s).1 = inr true).
Proof.
  induction names as [|n names IH]; [done|].
  rewrite fmap_cons, filter_cons. cbn [fst].
  destruct (decide (exposes (w s) (instance (self s)) n = true)) as [Hn|Hn].
  - intros [= <- _]. destruct (exposes_callable _ _ _ Hn) as [c Hc].
    exists c. split; [done|]. split; [done|].
    rewrite (call_candidates_hit _ _ _ _ _ _ Hc). cbv zeta.
    destruct (invoke c args (w s)) as [[e|v] x]; cbn [fst snd].
    + rewrite push_error_run_bind. unfold raise. cbn [fst snd calls].
      split_and!; [done|done|]. intros ? ?. discriminate.
    + cbn [calls]. by split_and!.
  - intros Hf. apply not_true_is_false in Hn.
    rewrite (call_candidates_skip _ _ _ _ _ Hn). by apply IH.
Qed.

(** [_call_if_exists] without swallowing: exactly one call, to the first
    exposed name among the fallbacks and then the key handler. *)
Lemma call_if_exists_first fbs s ev rest :
  fbs ≠ [] →
  filter (fun ev => exposes (w s) (instance (self s)) ev.1 = true)
    (((fun n => (n, [])) <$> fbs)
     ++ [("handle_key", [VStr (default "" (head fbs))])]) = ev :: rest →
  ∃ c, attr (w s) (instance (self s)) ev.1 = Some (VCallable c)
       ∧ calls (_call_if_exists fbs [] false s).2 = calls s ++ [ev]
       ∧ (∀ v x, invoke c ev.2 (w s) = (inr v, x) →
            (_call_if_exists fbs [] false s).1 = inr true).
Proof.
  intros Hfbs. rewrite filter_app.
  match goal with
  | |- ?l1 ++ _ = _ → _ => destruct l1 as [|ev' rest'] eqn:Ef
  end.
  - (* only the key handler is exposed *)
    rewrite app_nil_l, filter_cons, filter_nil. cbn [fst].
    destruct (decide (exposes (w s) (instance (self s)) "handle_key" = true))
      as [Hk|Hk]; [|done].
    intros [= <- _]. destruct (exposes_callable _ _ _ Hk) as [c Hc].
    exists c. split; [done|].
    apply filter_nil_Forall in Ef.
    assert (Forall (fun n => exposes (w s) (instance (self s)) n = false) fbs) as Hun.
    { rewrite Forall_fmap in Ef. eapply Forall_impl; [exact Ef|].
      intros n Hn. simpl in Hn. by apply not_true_is_false. }
    destruct fbs as [|first fbs']; [done|].
    rewrite (call_if_exists_handler _ _ _ _ _ _ Hun Hc). cbv zeta.
    change (default "" (head (first :: fbs'))) with first. cbn [snd].
    destruct (invoke c [VStr first] (w s)) as [[e|v] x]; cbn [fst snd].
    + rewrite push_error_run_bind. unfold raise. cbn [fst snd calls].
      split; [done|]. intros ? ?. discriminate.
    + cbn [calls]. by split.
  - intros [= <- _].
    destruct (call_candidates_first fbs [] s ev' rest' Ef)
      as (c & Hc & Ha & Hcalls & Hne & Hok).
    exists c. split; [done|]. rewrite Ha.
    rewrite (call_if_exists_found _ _ _ _ Hne). cbn [fst snd].
    split; [done|]. intros v x Hi. by rewrite (Hok v x Hi).
Qed.

(** *** Something exposed: the whole resolution list *)

Lemma fallback_extends_calls msg fbs :
  stable extends_calls
    (_push_error msg ;; (_call_if_exists fbs [] false ;; ret tt))%py.
Proof.
  apply (stable_bind extends_calls).
  - apply (stable_push_error extends_calls).
  - intros _. apply (stable_bind extends_calls).
    + apply (stable_call_if_exists extends_calls).
    + intros _. apply (stable_ret extends_calls).
Qed.

Lemma resolve_first_exposed prim pargs shown fbs s ev rest :
  fbs ≠ [] →
  filter (fun ev => exposes (w s) (instance (self s)) ev.1 = true)
    ((prim, pargs) :: ((fun n => (n, [])) <$> fbs)
     ++ [("handle_key", [VStr (default "" (head fbs))])]) = ev :: rest →
  ∃ c more, attr (w s) (instance (self s)) ev.1 = Some (VCallable c)
    ∧ calls (resolve prim pargs shown fbs s).2 = calls s ++ ev :: more
    ∧ (∀ v x, invoke c ev.2 (w s) = (inr v, x) →
         more = [] ∧ (resolve prim pargs shown fbs s).1 = inr tt).
Proof.
  intros Hfbs. rewrite filter_cons. cbn [fst].
  destruct (decide (exposes (w s) (instance (self s)) prim = true)) as [Hp|Hp].
  - intros [= <- _]. destruct (exposes_callable _ _ _ Hp) as [c Hc].
    rewrite (resolve_hit _ _ _ _ _ _ Hc). cbv zeta. cbn [fst snd].
    destruct (invoke c pargs (w s)) as [[e|v] x] eqn:Ei; cbn [fst snd].
    + match goal with
      | |- context [(bind ?m ?k) ?s1] =>
          assert (extends_calls s1 ((bind m k) s1).2) as [more Hmore]
      end.
      { apply fallback_extends_calls. }
      exists c, more. split; [done|]. split.
      * rewrite Hmore. cbn [calls]. by rewrite <- app_assoc.
      * intros v x' Hi. cbn [snd] in Hi. congruence.
    + exists c, []. cbn [calls]. by split_and!.
  - intros Hf. destruct (call_if_exists_first fbs s ev rest Hfbs Hf)
      as (c & Hc & Hcalls & Hok).
    exists c, []. split; [done|].
    apply not_true_is_false in Hp. rewrite (resolve_skip _ _ _ _ _ Hp).
    rewrite bind_ret_run.
    split; [done|]. intros v x Hi. split; [done|].
    cbn [fst]. by rewrite (Hok v x Hi).
Qed.

(** *** Printed lines *)

Lemma perform_stdout a s :
  stdout (perform a s).2 = stdout s ++ [trace_line a].
Proof.
  destruct (perform_eq a) as [shown ->]. unfold navigate.
  unfold bind at 1. unfold print at 1.
  apply (stable_resolve keeps_stdout).
Qed.

Lemma repeat_n_S n (m : M world unit) s :
  repeat_n (S n) m s
  = match m s with
    | (inr _, s1) => repeat_n n m s1
    | (inl e, s1) => (inl e, s1)
    end.
Proof. reflexivity. Qed.

(** Repeating an action: one trace line per call made; all [n] calls are
    made unless one raises. *)
Lemma repeat_perform_stdout n a s :
  ∃ k, stdout (repeat_n n (perform a) s).2 = stdout s ++ replicate k (trace_line a)
       ∧ (k ≤ n)%nat
       ∧ ((repeat_n n (perform a) s).1 = inr tt → k = n).
Proof.
  revert s. induction n as [|n IH]; intros s.
  - exists 0%nat. simpl. by rewrite app_nil_r.
  - rewrite repeat_n_S.
    pose proof (perform_stdout a s) as Hp.
    destruct (perform a s) as [[e|[]] s1]; cbn [fst snd] in *.
    + exists 1%nat. simpl. split_and!; [done|lia|done].
    + destruct (IH s1) as (k & Hk & Hle & Hall). exists (S k).
      rewrite Hk, Hp. cbn [replicate]. rewrite <- app_assoc. simpl.
      split_and!; [done|lia|]. intros Hr. by rewrite Hall.
Qed.

(** With swallowing, dispatch never raises. *)
Lemma call_candidates_swallow names args s :
  ∃ b, (call_candidates names args true s).1 = inr b.
Proof.
  revert s. induction names as [|n names IH]; intros s; [by exists false|].
  cbn [call_candidates].
  unfold bind at 1. unfold get_self at 1. unfold bind at 1. rewrite getattr_run.
  destruct (callable _); [|apply IH].
  unfold bind at 1. unfold attempt.
  destruct (call n _ args s) as [[e|v] s1]; [|by exists true].
  unfold bind at 1. unfold _push_error, bind, modify_self, logger. simpl.
  apply IH.
Qed.

Lemma call_if_exists_swallow names args s :
  ∃ b, (_call_if_exists names args true s).1 = inr b.
Proof.
  unfold _call_if_exists. unfold bind at 1.
  destruct (call_candidates_swallow names args s) as [b Hb].
  destruct (call_candidates names args true s) as [r s1]. simpl in Hb. subst r.
  destruct b; [by exists true|].
  unfold bind at 1. unfold get_self at 1. unfold bind at 1. rewrite getattr_run.
  destruct names as [|first names']; [by exists false|].
  destruct (callable _); [|by exists false].
  unfold bind at 1. unfold attempt.
  destruct (call "handle_key" _ _ s1) as [[e|v] s2]; [|by exists true].
  unfold _push_error, bind, modify_self, logger, ret. simpl. by exists false.
Qed.

End Dispatch_facts.

(** C6, refuted as stated: an action that nothing on the instance can
    take returns normally, and the error log is as empty afterwards as it
    was before. *)
Lemma C6_dropped_action_leaves_error_log_empty :
  let s := Sample.bridge_on (MenuLCDBridge.VObj 7) (Sample.repo [] []) in
  MenuLCDBridge.exposed (MenuLCDBridge.w s)
    (MenuLCDBridge.instance (MenuLCDBridge.self s)) MenuLCDBridge.Up = []
  ∧ (MenuLCDBridge.perform MenuLCDBridge.Up s).1 = inr tt
  ∧ MenuLCDBridge.errors
      (MenuLCDBridge.self (MenuLCDBridge.perform MenuLCDBridge.Up s).2) = []
  ∧ (MenuLCDBridge.pop_errors (MenuLCDBridge.perform MenuLCDBridge.Up s).2).1
    = inr [].
Proof. vm_compute. repeat split. Qed.

(** C6, as the bridge implements it: when the instance exposes none of an
    action's candidates and no key handler, the action returns without
    raising, calls nothing on the hosted side and leaves the bridge object,
    its error log included, exactly as it was; the only trace of the call
    is the line the action prints on entry. *)
Theorem C6_unresolved_action_returns_without_logging
    {world : Type} `{!MenuLCDBridge.Host world}
    (a : MenuLCDBridge.action) (s : MenuLCDBridge.st world) :
  MenuLCDBridge.exposed (MenuLCDBridge.w s)
    (MenuLCDBridge.instance (MenuLCDBridge.self s)) a = [] →
  MenuLCDBridge.perform a s
  = (inr tt,
     MenuLCDBridge.St (MenuLCDBridge.self s) (MenuLCDBridge.w s)
       (MenuLCDBridge.stdout s ++ [MenuLCDBridge.trace_line a])
       (MenuLCDBridge.logged s) (MenuLCDBridge.calls s)).
Proof.
  intros Hnone. unfold MenuLCDBridge.exposed, MenuLCDBridge.resolution in Hnone.
  apply filter_nil_Forall in Hnone.
  apply Forall_cons in Hnone as [Hp Hrest].
  apply Forall_app in Hrest as [Hf Hk].
  rewrite Forall_singleton in Hk. cbn [fst] in Hp, Hk.
  apply not_true_is_false in Hp, Hk.
  rewrite Forall_fmap in Hf.
  destruct (perform_eq a) as [shown ->]. unfold MenuLCDBridge.navigate.
  unfold MenuLCDBridge.bind at 1. unfold MenuLCDBridge.print at 1.
  apply resolve_unexposed; cbn [MenuLCDBridge.w MenuLCDBridge.self]; try done.
  eapply Forall_impl; [exact Hf|]. intros n Hn. simpl in Hn.
  by apply not_true_is_false.
Qed.

Lemma C6_unresolved_action_returns_without_logging_witness :
  let s := Sample.bridge_on (MenuLCDBridge.VObj 7) (Sample.repo [] []) in
  MenuLCDBridge.perform MenuLCDBridge.Down s
  = (inr tt,
     MenuLCDBridge.St (MenuLCDBridge.self s) (MenuLCDBridge.w s)
       (MenuLCDBridge.stdout s ++ [MenuLCDBridge.trace_line MenuLCDBridge.Down])
       (MenuLCDBridge.logged s) (MenuLCDBridge.calls s)).
Proof.
  intros s. apply (C6_unresolved_action_returns_without_logging MenuLCDBridge.Down s).
  vm_compute. reflexivity.
Defined.

(** C2, refuted as stated: with a pointer method that raises and a generic
    [button_up], one [action_up] calls both candidates. *)
Lemma C2_raising_primary_is_followed_by_fallback :
  let s := Sample.bridge_on (MenuLCDBridge.VObj 7)
             (Sample.repo Sample.menu_with_broken_pointer [2%nat]) in
  MenuLCDBridge.exposed (MenuLCDBridge.w s)
    (MenuLCDBridge.instance (MenuLCDBridge.self s)) MenuLCDBridge.Up
  = [("change_pointer", [MenuLCDBridge.VInt (-1)]); ("button_up", [])]
  ∧ (MenuLCDBridge.perform MenuLCDBridge.Up s).1 = inr tt
  ∧ MenuLCDBridge.calls (MenuLCDBridge.perform MenuLCDBridge.Up s).2
    = [("change_pointer", [MenuLCDBridge.VInt (-1)]); ("button_up", [])].
Proof. vm_compute. repeat split. Qed.

(** C2, as the bridge implements it: when the instance exposes at least
    one candidate of an action's resolution list, the first call the action
    makes is to the first exposed candidate in priority order, with that
    candidate's arguments; and when that call returns, it is the only call
    made and the action returns. *)
Theorem C2_first_exposed_candidate_is_called_first
    {world : Type} `{!MenuLCDBridge.Host world}
    (a : MenuLCDBridge.action) (s : MenuLCDBridge.st world)
    (ev : MenuLCDBridge.call_event) (rest : list MenuLCDBridge.call_event) :
  MenuLCDBridge.exposed (MenuLCDBridge.w s)
    (MenuLCDBridge.instance (MenuLCDBridge.self s)) a = ev :: rest →
  ∃ c more,
    MenuLCDBridge.attr (MenuLCDBridge.w s)
      (MenuLCDBridge.instance (MenuLCDBridge.self s)) ev.1
    = Some (MenuLCDBridge.VCallable c)
    ∧ MenuLCDBridge.calls (MenuLCDBridge.perform a s).2
      = MenuLCDBridge.calls s ++ ev :: more
    ∧ (∀ v x, MenuLCDBridge.invoke c ev.2 (MenuLCDBridge.w s) = (inr v, x) →
         more = [] ∧ (MenuLCDBridge.perform a s).1 = inr tt).
Proof.
  intros Hex. unfold MenuLCDBridge.exposed, MenuLCDBridge.resolution in Hex.
  destruct (perform_eq a) as [shown ->]. unfold MenuLCDBridge.navigate.
  unfold MenuLCDBridge.bind at 1. unfold MenuLCDBridge.bind at 1.
  unfold MenuLCDBridge.print at 1. unfold MenuLCDBridge.print at 1.
  apply (resolve_first_exposed (MenuLCDBridge.primary a) (MenuLCDBridge.primary_args a)
           shown (MenuLCDBridge.fallbacks a)
           (MenuLCDBridge.St (MenuLCDBridge.self s) (MenuLCDBridge.w s)
              (MenuLCDBridge.stdout s ++ [MenuLCDBridge.trace_line a])
              (MenuLCDBridge.logged s) (MenuLCDBridge.calls s)) ev rest).
  - by destruct a.
  - exact Hex.
Qed.

Lemma C2_first_exposed_candidate_is_called_first_witness :
  let s := Sample.bridge_on (MenuLCDBridge.VObj 7)
             (Sample.repo Sample.menu_with_generic_up []) in
  MenuLCDBridge.calls (MenuLCDBridge.perform MenuLCDBridge.Up s).2 = [("button_up", [])]
  ∧ (MenuLCDBridge.perform MenuLCDBridge.Up s).1 = inr tt.
Proof.
  intros s.
  destruct (C2_first_exposed_candidate_is_called_first MenuLCDBridge.Up s
              ("button_up", []) [("up", [])]) as (c & more & Hc & Hcalls & Hok).
  - vm_compute. reflexivity.
  - vm_compute in Hc. injection Hc as <-.
    destruct (Hok MenuLCDBridge.VNone (MenuLCDBridge.w s)) as [-> Hr];
      [vm_compute; reflexivity|].
    split; [exact Hcalls | exact Hr].
Defined.



(** * Further properties *)

(** ** Pin shim: levels, registrations, cleanup *)

Section GPIO_more.
Context {W : Type}.
Implicit Types (s : GPIO.state W) (cb : GPIO.callback W) (w : W).

(** X1.  Writing then reading: [output] makes the channel read HIGH for a
  non-zero value and LOW for zero, and leaves the reading of every other
  channel, all directions and all registrations as they were. *)
Theorem X1_output_then_input c v s :
GPIO.input c (GPIO.output c v s) = (if bool_decide (v = 0) then GPIO.LOW else GPIO.HIGH)
∧ (∀ c', c' ≠ c → GPIO.input c' (GPIO.output c v s) = GPIO.input c' s)
∧ GPIO._pin_dir (GPIO.output c v s) = GPIO._pin_dir s
∧ GPIO._callbacks (GPIO.output c v s) = GPIO._callbacks s.
Proof.
split_and!; try done.
- unfold GPIO.input, GPIO.output, GPIO.truthy; simpl. rewrite lookup_insert_eq.
  simpl. case_bool_decide as Hv.
  + subst. done.
  + by rewrite (proj2 (Z.eqb_neq v 0) Hv).
- intros c' Hne. unfold GPIO.input, GPIO.output; simpl.
  by rewrite lookup_insert_ne.
Qed.

(** X2.  [setup] records the direction of its channel.  Without an initial
  value it changes no reading; with one, the channel reads that value as
  given and the other channels read as before. *)
Theorem X2_setup_direction_and_level c m p i s :
GPIO._pin_dir (GPIO.setup c m p i s) !! c = Some m
∧ (∀ c', c' ≠ c → GPIO.input c' (GPIO.setup c m p i s) = GPIO.input c' s)
∧ GPIO.input c (GPIO.setup c m p i s) = default (GPIO.input c s) i.
Proof.
split_and!.
- unfold GPIO.setup; simpl. by rewrite lookup_insert_eq.
- intros c' Hne. unfold GPIO.input, GPIO.setup; simpl.
  destruct i; [by rewrite lookup_insert_ne|done].
- unfold GPIO.input, GPIO.setup; simpl.
  destruct i; [by rewrite lookup_insert_eq|done].
Qed.

Lemma registered_channels_lookup c s :
c ∈ GPIO.registered_channels s ↔ is_Some (GPIO._callbacks s !! c).
Proof.
unfold GPIO.registered_channels. rewrite list_elem_of_fmap. split.
- intros [[c' cb] [-> Hin]]. apply elem_of_map_to_list in Hin. by eexists.
- intros [cb Hcb]. exists (c, cb). split; [done|]. by apply elem_of_map_to_list.
Qed.

(** X3.  The registered channels are exactly those with an edge callback:
  [add_event_detect] adds its channel, [remove_event_detect] removes its
  channel and no other, the list never repeats a channel, and
  [simulate_edge] on a channel outside it runs nothing. *)
Theorem X3_registered_channels c e cb bt s :
(∀ c', c' ∈ GPIO.registered_channels (GPIO.add_event_detect c e cb bt s)
       ↔ c' = c ∨ c' ∈ GPIO.registered_channels s)
∧ (∀ c', c' ∈ GPIO.registered_channels (GPIO.remove_event_detect c s)
         ↔ c' ≠ c ∧ c' ∈ GPIO.registered_channels s)
∧ NoDup (GPIO.registered_channels s)
∧ (∀ c' w, c' ∉ GPIO.registered_channels s →
           GPIO.simulate_edge c' s w = (None, w, [])).
Proof.
split_and!.
- intros c'. rewrite !registered_channels_lookup. simpl.
  destruct (decide (c = c')) as [->|Hne].
  + rewrite lookup_insert_eq. split; [by left|by eexists].
  + rewrite lookup_insert_ne by done. split; [by right|].
    intros [->|H]; done.
- intros c'. rewrite !registered_channels_lookup. simpl.
  destruct (decide (c = c')) as [->|Hne].
  + rewrite lookup_delete_eq. split; [by intros [? ?]|by intros [? _]].
  + rewrite lookup_delete_ne by done. split; [done|by intros [_ ?]].
- unfold GPIO.registered_channels. apply NoDup_fst_map_to_list.
- intros c' w Hc'. rewrite registered_channels_lookup in Hc'.
  unfold GPIO.simulate_edge.
  destruct (GPIO._callbacks s !! c') eqn:E; [|done].
  destruct Hc'. by eexists.
Qed.

(** X4.  One callback per channel: registering again on a channel replaces
  the earlier registration altogether, and removing a registration made
  on a free channel gives back the state before it. *)
Theorem X4_registration_replaces_and_undoes c e1 cb1 bt1 e2 cb2 bt2 s :
GPIO.add_event_detect c e2 cb2 bt2 (GPIO.add_event_detect c e1 cb1 bt1 s)
= GPIO.add_event_detect c e2 cb2 bt2 s
∧ (GPIO._callbacks s !! c = None → GPIO._channel_edges s !! c = None →
   GPIO.remove_event_detect c (GPIO.add_event_detect c e1 cb1 bt1 s) = s).
Proof.
split.
- unfold GPIO.add_event_detect; simpl. by rewrite !insert_insert_eq.
- intros H1 H2. unfold GPIO.remove_event_detect, GPIO.add_event_detect; simpl.
  rewrite !delete_insert_eq, !delete_id by done. by destruct s.
Qed.

(** X5.  [cleanup(channel)] clears that channel and no other: afterwards
  the channel reads LOW and has no callback, and every other channel
  reads as before and keeps its callback.  [cleanup()] clears every
  channel, keeping the addressing mode. *)
Theorem X5_cleanup_scope c s :
GPIO.input c (GPIO.cleanup (Some c) s) = GPIO.LOW
∧ GPIO._callbacks (GPIO.cleanup (Some c) s) !! c = None
∧ (∀ c', c' ≠ c →
     GPIO.input c' (GPIO.cleanup (Some c) s) = GPIO.input c' s
     ∧ GPIO._callbacks (GPIO.cleanup (Some c) s) !! c' = GPIO._callbacks s !! c')
∧ (∀ c' w, GPIO.input c' (GPIO.cleanup None s) = GPIO.LOW
           ∧ GPIO.simulate_edge c' (GPIO.cleanup None s) w = (None, w, []))
∧ GPIO.getmode (GPIO.cleanup None s) = GPIO.getmode s.
Proof.
split_and!; try done.
- unfold GPIO.input; simpl. by rewrite lookup_delete_eq.
- simpl. by rewrite lookup_delete_eq.
- intros c' Hne. unfold GPIO.input; simpl. by rewrite !lookup_delete_ne.
Qed.

End GPIO_more.

Lemma X4_registration_replaces_and_undoes_witness :
  GPIO.remove_event_detect 17
    (GPIO.add_event_detect 17 GPIO.RISING Sample.one_param None GPIO.initial)
  = GPIO.initial.
Proof.
  apply (proj2 (X4_registration_replaces_and_undoes (W:=nat) 17 GPIO.RISING
                  Sample.one_param None GPIO.FALLING Sample.zero_param None
                  GPIO.initial)); reflexivity.
Defined.


(** ** Pin shim: PWM *)

(** X6.  A PWM object keeps its channel and frequency whatever is done to
    it; it is running exactly when the last of its [start]/[stop] calls was
    a [start]; and its duty cycle is the one given by the last [start] or
    [ChangeDutyCycle] ([stop] keeps it). *)
Theorem X6_pwm_state_after_calls {T : Type} (os : list (PWM.pwm_op T)) (p : PWM._PWM T) :
  PWM.channel (PWM.run_ops os p) = PWM.channel p
  ∧ PWM.freq (PWM.run_ops os p) = PWM.freq p
  ∧ PWM.running (PWM.run_ops os p) = default (PWM.running p) (PWM.last_switch os)
  ∧ PWM.duty (PWM.run_ops os p) = default (PWM.duty p) (PWM.last_duty os).
Proof.
  induction os as [|o os IH] using rev_ind; [done|].
  unfold PWM.run_ops, PWM.last_switch, PWM.last_duty in *.
  rewrite foldl_app, !omap_app. simpl.
  destruct IH as (IH1 & IH2 & IH3 & IH4).
  destruct o; simpl; rewrite ?app_nil_r, ?last_snoc; simpl; by split_and!.
Qed.

(** ** Platform defaults *)

(** X7.  [apply] only fills in what is missing: a variable that is already
    set keeps its value, both defaults are defined afterwards, and applying
    it a second time changes nothing. *)
Theorem X7_platform_defaults_do_not_override (env : gmap string string) :
  (∀ k v, env !! k = Some v → FakePlatform.apply env !! k = Some v)
  ∧ is_Some (FakePlatform.apply env !! "PLATFORM")
  ∧ is_Some (FakePlatform.apply env !! "SDL_VIDEODRIVER")
  ∧ FakePlatform.apply (FakePlatform.apply env) = FakePlatform.apply env.
Proof.
  assert (∀ k v (m : gmap string string), is_Some (FakePlatform.setdefault k v m !! k))
    as Hdef.
  { intros k v m. unfold FakePlatform.setdefault.
    destruct (m !! k) eqn:E; [by rewrite E|by rewrite lookup_insert_eq]. }
  assert (∀ k v k' v' (m : gmap string string),
            m !! k' = Some v' → FakePlatform.setdefault k v m !! k' = Some v') as Hkeep.
  { intros k v k' v' m Hm. unfold FakePlatform.setdefault.
    destruct (m !! k) eqn:E; [done|].
    rewrite lookup_insert_ne; [done|]. intros ->. congruence. }
  assert (∀ k v (m : gmap string string),
            is_Some (m !! k) → FakePlatform.setdefault k v m = m) as Hid.
  { intros k v m [x Hx]. unfold FakePlatform.setdefault. by rewrite Hx. }
  unfold FakePlatform.apply. split_and!.
  - intros k v Hk. by apply Hkeep, Hkeep.
  - destruct (Hdef "PLATFORM" "SIMULATED" env) as [x Hx]. exists x. by apply Hkeep.
  - apply Hdef.
  - rewrite (Hid "PLATFORM").
    + by rewrite Hid.
    + destruct (Hdef "PLATFORM" "SIMULATED" env) as [x Hx]. exists x. by apply Hkeep.
Qed.

(** ** Watcher: the flush loop *)

Section Watcher_more.
Import RepoWatcher.
Context {E : Elapsed}.
Implicit Types (s : loop_state) (t : tick) (ticks : list tick).

Import WatcherAccount.

Lemma iteration_seen debounce s t :
seen (iteration debounce s t)
= seen s ∪ list_to_set (path <$> (arrived t ++ raced t)).
Proof.
unfold seen. rewrite fmap_app.
destruct (iteration_cases debounce s t) as [[-> _]|[-> _]]; simpl.
- rewrite !list_to_set_app_L.
  generalize (⋃ delivered s) (list_to_set (_changed s) : gset string)
    (list_to_set (lost s) : gset string)
    (list_to_set (path <$> arrived t) : gset string)
    (list_to_set (path <$> raced t) : gset string).
  intros D C L A X. clear. apply set_eq. intros x.
  rewrite !elem_of_union, ?elem_of_empty. tauto.
- rewrite union_list_app_L, !list_to_set_app_L. simpl.
  generalize (⋃ delivered s) (list_to_set (_changed s) : gset string)
    (list_to_set (lost s) : gset string)
    (list_to_set (path <$> arrived t) : gset string)
    (list_to_set (path <$> raced t) : gset string).
  intros D C L A X. clear. apply set_eq. intros x.
  rewrite !elem_of_union, ?elem_of_empty. tauto.
Qed.

Lemma loop_seen debounce ticks s :
seen (_debounce_loop debounce s ticks) = seen s ∪ paths ticks.
Proof.
revert s. induction ticks as [|t ticks IH]; intros s.
- unfold paths, events. simpl. by rewrite union_empty_r_L.
- rewrite loop_cons, IH, iteration_seen. unfold paths.
  rewrite events_cons, (fmap_app path (arrived t ++ raced t)).
  rewrite list_to_set_app_L. by rewrite (assoc_L (∪)).
Qed.

Lemma loop_lost debounce ticks s :
∃ more, lost (_debounce_loop debounce s ticks) = lost s ++ more
        ∧ more `sublist_of` (path <$> (ticks ≫= raced)).
Proof.
revert s. induction ticks as [|t ticks IH]; intros s.
- exists []. by rewrite app_nil_r.
- rewrite loop_cons. destruct (IH (iteration debounce s t)) as (more & -> & Hsub).
  rewrite bind_cons, fmap_app.
  destruct (iteration_cases debounce s t) as [[-> _]|[-> _]]; simpl.
  + exists more. split; [done|]. by apply sublist_inserts_l.
  + exists ((path <$> raced t) ++ more). split; [by rewrite app_assoc|].
    by apply sublist_app.
Qed.

(** X8.  Every change that arrives is accounted for: at any point of a run
  the paths delivered so far, the paths still pending and the paths
  dropped are together exactly the paths of the events that have
  arrived.  Only events appended while a flush was between its copy and
  its [clear()] are dropped; in a run without such events nothing is. *)
Theorem X8_changes_delivered_pending_or_dropped debounce (t0 : Z) ticks :
let s := _debounce_loop debounce (started t0) ticks in
⋃ (delivered s) ∪ list_to_set (_changed s) ∪ list_to_set (lost s) = paths ticks
∧ lost s `sublist_of` (path <$> (ticks ≫= raced))
∧ (Forall (fun t => raced t = []) ticks →
   ⋃ (delivered s) ∪ list_to_set (_changed s) = paths ticks).
Proof.
intros s. pose proof (loop_seen debounce ticks (started t0)) as Hseen.
unfold seen in Hseen. fold s in Hseen. simpl in Hseen.
rewrite !(left_id_L ∅ (∪)) in Hseen.
destruct (loop_lost debounce ticks (started t0)) as (more & Hl & Hsub).
fold s in Hl. simpl in Hl. subst more.
split_and!; [done..|].
intros Hno. assert (ticks ≫= raced = []) as Hnil.
{ clear -Hno. induction Hno as [|t l Ht _ IH]; [done|].
  by rewrite bind_cons, Ht, IH. }
rewrite Hnil in Hsub. apply sublist_nil_r in Hsub.
rewrite Hsub in Hseen. simpl in Hseen. by rewrite (right_id_L ∅ (∪)) in Hseen.
Qed.

Lemma loop_payloads_nonempty debounce ticks s :
Forall (fun p : gset string => p ≠ ∅) (delivered s) →
Forall (fun p : gset string => p ≠ ∅) (delivered (_debounce_loop debounce s ticks)).
Proof.
revert s. induction ticks as [|t ticks IH]; intros s Hs; [done|].
rewrite loop_cons. apply IH.
destruct (iteration_cases debounce s t) as [[-> _]|[-> [Hne _]]]; simpl; [done|].
apply Forall_app. split; [done|]. apply Forall_singleton.
destruct (_changed s ++ (path <$> arrived t)) as [|p l]; [done|].
simpl. set_solver.
Qed.

(** X9.  The callback is never invoked with an empty payload. *)
Theorem X9_no_empty_callback debounce (t0 : Z) ticks :
Forall (fun p : gset string => p ≠ ∅)
  (delivered (_debounce_loop debounce (started t0) ticks)).
Proof. by apply loop_payloads_nonempty. Qed.

Lemma loop_rate debounce ticks s :
let s' := _debounce_loop debounce s ticks in
(length (delivered s') ≤ length (delivered s) + length ticks)%nat
∧ (Z.of_nat (length (delivered s')) - Z.of_nat (length (delivered s))) * debounce
  ≤ last_flush s' - last_flush s.
Proof.
revert s. induction ticks as [|t ticks IH]; intros s.
- simpl. split; lia.
- cbn zeta. rewrite loop_cons.
  destruct (IH (iteration debounce s t)) as [IH1 IH2].
  destruct (iteration_cases debounce s t) as [[Hs _]|[Hs [_ Hd]]];
    rewrite Hs in IH1, IH2 |- *; simpl in IH1, IH2; simpl.
  + split; lia.
  + rewrite length_app in IH1, IH2. simpl in IH1, IH2. split; [lia|].
    nia.
Qed.

(** X10.  The loop throttles: it makes at most one callback per poll, and
  [n] callbacks take at least [n] debounce intervals, counted from the
  start to the last flush. *)
Theorem X10_callbacks_are_throttled debounce (t0 : Z) ticks :
let s := _debounce_loop debounce (started t0) ticks in
(length (delivered s) ≤ length ticks)%nat
∧ Z.of_nat (length (delivered s)) * debounce ≤ last_flush s - t0.
Proof.
intros s. destruct (loop_rate debounce ticks (started t0)) as [H1 H2].
fold s in H1, H2. simpl in H1, H2. split; lia.
Qed.

End Watcher_more.

Lemma X8_changes_delivered_pending_or_dropped_witness :
  let s := RepoWatcher._debounce_loop (E:=RepoWatcher.exact) 200
             (RepoWatcher.started 0) Sample.two_edits in
  ⋃ (RepoWatcher.delivered s) ∪ list_to_set (RepoWatcher._changed s)
  = RepoWatcher.paths Sample.two_edits.
Proof.
  apply (X8_changes_delivered_pending_or_dropped (E:=RepoWatcher.exact) 200 0
           Sample.two_edits).
  repeat constructor.
Defined.

(** ** Watcher: start and stop *)

Section Watching_more.
Import Watching.
Context (fs : string → option bool) (parent : string → string).
Implicit Types (x : RepoWatcher) (ps : list string).

(** X11.  Start and stop are idempotent and undo each other's running
  state: starting a running watcher changes nothing (whatever the file
  system has become), stopping an idle one changes nothing, and a stop
  after a start leaves the watcher idle with no observer and no thread.
  Each fresh start begins with an empty buffer and a clear stop flag. *)
Theorem X11_start_stop_lifecycle (fs' : string → option bool) x :
start fs' parent (start fs parent x) = start fs parent x
∧ stop (stop x) = stop x
∧ (is_running x = false → stop x = x)
∧ (is_running (stop (start fs parent x)) = false
   ∧ _obs (stop (start fs parent x)) = None
   ∧ _thr (stop (start fs parent x)) = false)
∧ (is_running x = false →
   is_running (start fs parent x) = true
   ∧ _changed (start fs parent x) = []
   ∧ _stop (start fs parent x) = false
   ∧ _obs (start fs parent x) = Some (schedule fs parent (paths x))).
Proof.
unfold start, stop. split_and!.
- destruct (is_running x) eqn:E; simpl; [by rewrite E|done].
- destruct (is_running x) eqn:E; simpl; [done|by rewrite E].
- by intros ->.
- by destruct (is_running x) eqn:E; simpl; rewrite ?E.
- by destruct (is_running x) eqn:E; simpl; rewrite ?E.
- by destruct (is_running x) eqn:E; simpl; rewrite ?E.
- by intros ->.
Qed.

(** X12.  Registration of the targets is best effort: a missing target is
  skipped, every other target gives exactly one watch, in order; a
  directory is watched recursively under its own path, anything else
  through its parent directory, not recursively. *)
Theorem X12_schedule_skips_missing_targets ps :
schedule fs parent ps
= (fun p => if default false (fs p) then Watch p true else Watch (parent p) false)
    <$> filter (fun p => is_Some (fs p)) ps.
Proof.
induction ps as [|p ps IH]; [done|]. simpl. rewrite filter_cons.
destruct (fs p) as [[|]|] eqn:E.
- rewrite decide_True by eauto. simpl. rewrite E. simpl. by rewrite IH.
- rewrite decide_True by eauto. simpl. rewrite E. simpl. by rewrite IH.
- rewrite decide_False by (by intros [? ?]). done.
Qed.

End Watching_more.

(** ** Bridge: render step, font lookup, message test *)

Section Bridge_more.
Import MenuLCDBridge BridgeFrames.
Local Open Scope py_scope.
Context {world : Type} `{!Host world}.
Implicit Types (s : st world).

Lemma step_loop_returns o label names s :
∃ b, (step_loop o label names s).1 = inr b.
Proof.
revert s. induction names as [|n names IH]; intros s; [by exists false|].
cbn [step_loop]. unfold bind at 1. rewrite getattr_run.
destruct (callable _); [|apply IH].
unfold bind at 1. unfold attempt.
destruct (call n _ [] s) as [[e|v] s1]; [|by exists true].
rewrite push_error_run_bind. apply IH.
Qed.

Lemma step_returns s : ∃ s', step s = (inr tt, s').
Proof.
unfold step. unfold bind at 1. unfold get_self at 1.
unfold bind at 1. unfold ask at 1.
destruct (truthy (w s) (instance (self s))); cbn [negb]; [|by eexists].
unfold bind at 1. unfold bind at 1. unfold get_self at 1.
match goal with
| |- context [step_loop ?o ?l ?ns s] =>
    destruct (step_loop_returns o l ns s) as [b Hb];
    destruct (step_loop o l ns s) as [r s1]
end.
simpl in Hb. subst r. destruct b; [by eexists|].
unfold bind at 1. unfold get_self at 1. unfold bind at 1. rewrite getattr_run.
destruct (bool_decide _); [by eexists|].
unfold bind at 1.
match goal with
| |- context [step_loop ?o ?l ?ns s1] =>
    destruct (step_loop_returns o l ns s1) as [b Hb];
    destruct (step_loop o l ns s1) as [r s2]
end.
simpl in Hb. subst r. by eexists.
Qed.

(** X13.  [step] never raises, whatever the hosted render methods do (a
  raising method is logged and the next candidate tried); and on a
  bridge whose instance is missing or falsy it does nothing at all. *)
Theorem X13_step_never_raises s :
(step s).1 = inr tt
∧ (truthy (w s) (instance (self s)) = false → step s = (inr tt, s)).
Proof.
split.
- destruct (step_returns s) as [s' ->]. done.
- intros Hf. unfold step. unfold bind at 1. unfold get_self at 1.
  unfold bind at 1. unfold ask at 1. by rewrite Hf.
Qed.


Lemma prefix_spec (n h : string) :
String.prefix n h = true ↔ ∃ post, h = n +:+ post.
Proof.
revert h. induction n as [|a n IH]; intros h.
- split; [intros _; by exists h|by destruct h].
- destruct h as [|b h]; simpl.
  + split; [done|by intros [post ?]].
  + destruct (Ascii.ascii_dec a b) as [->|Hne].
    * rewrite IH. split; intros [post Hp]; exists post.
      -- simpl. by rewrite Hp.
      -- simpl in Hp. by injection Hp.
    * split; [done|]. intros [post Hp]. simpl in Hp.
      injection Hp as Hab _. by destruct Hne.
Qed.

(** [contains needle hay] is the substring test [needle in hay]. *)
Lemma contains_spec (needle hay : string) :
contains needle hay = true ↔ ∃ pre post, hay = pre +:+ needle +:+ post.
Proof.
induction hay as [|c hay IH].
- cbn [contains]. rewrite orb_false_r, prefix_spec. split.
  + intros [post Hp]. by exists "", post.
  + intros (pre & post & Hp). destruct pre; [by exists post|done].
- cbn [contains]. rewrite orb_true_iff, prefix_spec, IH. split.
  + intros [[post Hp]|(pre & post & Hp)].
    * by exists "", post.
    * exists (String c pre), post. simpl. by rewrite Hp.
  + intros (pre & post & Hp). destruct pre as [|c' pre].
    * left. by exists post.
    * right. simpl in Hp. injection Hp as _ Hp. by exists pre, post.
Qed.

(** X15.  When the initializer raises, the reconstruction re-raises that
  same error after recording the call; it adds the missing-fonts
  diagnostic to the error list when the message of the error contains
  the name of one of the two font files, and adds nothing otherwise. *)
Theorem X15_missing_fonts_diagnostic c (args : value) (s : st world) e (x : world) :
invoke c [args] (w s) = (inl e, x) →
let names (font : string) := ∃ pre post, str e = pre +:+ font +:+ post in
∃ s', run_initializer (VCallable c) args s = (inl e, s')
      ∧ w s' = x
      ∧ calls s' = calls s ++ [("ComponentInitializer", [args])]
      ∧ (names "FreeSansBold.ttf" ∨ names "FreeMonoBold.ttf" →
         errors (self s')
         = errors (self s)
           ++ ["Missing fonts FreeSansBold.ttf / FreeMonoBold.ttf. "
               +:+ "Place them in <repo>/fonts or set PIANO_LED_FONTDIR."])
      ∧ (¬ (names "FreeSansBold.ttf" ∨ names "FreeMonoBold.ttf") →
         self s' = self s).
Proof.
intros Hc names. rewrite (run_initializer_raises c args s e x Hc).
eexists. split; [reflexivity|]. cbn [w calls self].
split_and!; [done..| |].
- intros Hn.
  assert (contains "FreeSansBold.ttf" (str e)
          || contains "FreeMonoBold.ttf" (str e) = true) as ->; [|done].
  apply orb_true_iff. by rewrite !contains_spec.
- intros Hn.
  assert (contains "FreeSansBold.ttf" (str e)
          || contains "FreeMonoBold.ttf" (str e) = false) as ->; [|done].
  apply not_true_is_false. rewrite orb_true_iff, !contains_spec. exact Hn.
Qed.

End Bridge_more.

Lemma X15_missing_fonts_diagnostic_witness :
  let s := Sample.bridge_on MenuLCDBridge.VNone (Sample.repo [] []) in
  ∃ s', MenuLCDBridge.run_initializer (MenuLCDBridge.VCallable 104)
          (MenuLCDBridge.VObj 3) s
        = (inl (OtherError "cannot open resource fonts/FreeSansBold.ttf"), s')
        ∧ MenuLCDBridge.errors (MenuLCDBridge.self s')
          = ["Missing fonts FreeSansBold.ttf / FreeMonoBold.ttf. "
             +:+ "Place them in <repo>/fonts or set PIANO_LED_FONTDIR."].
Proof.
  intros s.
  destruct (X15_missing_fonts_diagnostic 104%nat (MenuLCDBridge.VObj 3) s
              (OtherError "cannot open resource fonts/FreeSansBold.ttf")
              (Sample.repo [] []))
    as (s' & Hr & _ & _ & Hfonts & _); [vm_compute; reflexivity|].
  exists s'. split; [exact Hr|]. rewrite Hfonts; [reflexivity|].
  left. by exists "cannot open resource fonts/", "".
Defined.

(** ** Bridge: which operation changes what *)

Section Bridge_frames.
Import MenuLCDBridge BridgeFrames.
Local Open Scope py_scope.
Context {world : Type} `{!Host world}.
Implicit Types (s : st world).

Global Instance keeps_construction_basic : Basic (keeps_construction (world:=world)).
Proof.
split; [split|..]; unfold keeps_construction; simpl.
2: { intros s1 s2 s3 (?&?&?&?) (?&?&?&?). split_and!; congruence. }
all: by intros.
Qed.

Global Instance keeps_repo_path_basic : Basic (keeps_repo_path (world:=world)).
Proof. split; [split|..]; unfold keeps_repo_path; intros; simpl; congruence. Qed.

Global Instance keeps_profile_basic : Basic (keeps_profile (world:=world)).
Proof. split; [split|..]; unfold keeps_profile; intros; simpl; congruence. Qed.

Lemma run_op_get_frame_state s : (run_op OpGetFrame s).2 = (get_frame s).2.
Proof. unfold run_op. by destruct (get_frame s). Qed.

Lemma run_op_keeps_construction o s :
reconstructs o = false → keeps_construction s (run_op o s).2.
Proof.
intros Ho. destruct o; try discriminate.
- apply (stable_native_size keeps_construction).
- rewrite run_op_get_frame_state. by apply (stable_get_frame keeps_construction).
- apply (stable_step keeps_construction).
- by apply (stable_perform keeps_construction).
- by apply (stable_action_home keeps_construction).
- by apply (stable_action_encoder keeps_construction).
- apply (stable_pop_errors keeps_construction).
- simpl in Ho. subst. unfold run_op, set_display_profile. cbn [snd].
  destruct (negb (supported_profile profile)); [apply basic_refl|].
  unfold bind, modify_self, ret. by cbn.
Qed.

(** X16.  Only a reconstruction replaces the hosted instance: a sequence
  of operations without [reload], [set_repo] and a reloading
  [set_display_profile] (so: steps, frame reads, actions, encoder turns,
  home, error pops, profile changes without reload) leaves the instance,
  the native size, the loaded module and the creation time as they
  were. *)
Theorem X16_instance_changes_only_by_reconstruction os s :
Forall (fun o => reconstructs o = false) os →
instance (self (run_ops os s).2) = instance (self s)
∧ _native_size (self (run_ops os s).2) = _native_size (self s)
∧ menulcd_module (self (run_ops os s).2) = menulcd_module (self s)
∧ _created_ts (self (run_ops os s).2) = _created_ts (self s).
Proof.
revert s. induction os as [|o os IH]; intros s Hos; [done|].
inversion Hos as [|? ? Ho Hrest]; subst. cbn [run_ops].
pose proof (run_op_keeps_construction o s Ho) as H1.
destruct (run_op o s) as [f s1]. specialize (IH s1 Hrest).
destruct (run_ops os s1) as [fs s2]. cbn [snd] in *.
unfold keeps_construction in H1. destruct H1 as (?&?&?&?), IH as (?&?&?&?).
split_and!; congruence.
Qed.

Lemma run_op_keeps_repo_path o s :
sets_repo o = false → keeps_repo_path s (run_op o s).2.
Proof.
intros Ho. destruct o; try discriminate.
- apply (stable_native_size keeps_repo_path).
- rewrite run_op_get_frame_state. by apply (stable_get_frame keeps_repo_path).
- apply (stable_step keeps_repo_path).
- by apply (stable_reload keeps_repo_path).
- by apply (stable_perform keeps_repo_path).
- by apply (stable_action_home keeps_repo_path).
- by apply (stable_action_encoder keeps_repo_path).
- apply (stable_pop_errors keeps_repo_path).
- by apply (stable_set_display_profile keeps_repo_path).
Qed.

Lemma run_op_keeps_profile o s :
sets_profile o = false → keeps_profile s (run_op o s).2.
Proof.
intros Ho. destruct o; try discriminate.
- apply (stable_native_size keeps_profile).
- rewrite run_op_get_frame_state. by apply (stable_get_frame keeps_profile).
- apply (stable_step keeps_profile).
- by apply (stable_reload keeps_profile).
- by apply (stable_set_repo keeps_profile).
- by apply (stable_perform keeps_profile).
- by apply (stable_action_home keeps_profile).
- by apply (stable_action_encoder keeps_profile).
- apply (stable_pop_errors keeps_profile).
Qed.

(** X17.  The repository path changes only through [set_repo] and the
  display profile only through [set_display_profile]: every other
  operation, a failing or succeeding [reload] included, leaves them as
  they were. *)
Theorem X17_settings_change_only_by_their_setters os s :
(Forall (fun o => sets_repo o = false) os →
 repo_path (self (run_ops os s).2) = repo_path (self s))
∧ (Forall (fun o => sets_profile o = false) os →
   display_profile (self (run_ops os s).2) = display_profile (self s)).
Proof.
split; revert s; induction os as [|o os IH]; intros s Hos; try done;
  inversion Hos as [|? ? Ho Hrest]; subst; cbn [run_ops].
- pose proof (run_op_keeps_repo_path o s Ho) as H1.
  destruct (run_op o s) as [f s1]. specialize (IH s1 Hrest).
  destruct (run_ops os s1) as [fs s2]. cbn [snd] in *.
  unfold keeps_repo_path in H1. congruence.
- pose proof (run_op_keeps_profile o s Ho) as H1.
  destruct (run_op o s) as [f s1]. specialize (IH s1 Hrest).
  destruct (run_ops os s1) as [fs s2]. cbn [snd] in *.
  unfold keeps_profile in H1. congruence.
Qed.

(** X18.  [set_repo] does not roll back: whether the reload it triggers
  succeeds or raises, the bridge afterwards points at the new
  repository. *)
Theorem X18_set_repo_keeps_new_path_on_failure (new_repo : string) s :
repo_path (self (set_repo new_repo s).2) = new_repo.
Proof.
unfold set_repo. unfold bind at 1. unfold modify_self at 1.
by rewrite (stable_reload keeps_repo_path).
Qed.

(** X19.  [set_display_profile] with a supported profile stores it before
  reloading and does not roll back: the profile is the new one whether
  the reload succeeds or raises; and without reload nothing else in the
  state changes. *)
Theorem X19_set_display_profile_stores_before_reload profile reload_flag s :
supported_profile profile = true →
display_profile (self (set_display_profile profile reload_flag s).2) = profile
∧ set_display_profile profile false s
  = (inr tt, with_self (set_profile profile (self s)) s).
Proof.
intros Hp. unfold set_display_profile. rewrite Hp. cbn [negb]. split; [|done].
unfold bind at 1. unfold modify_self at 1.
destruct reload_flag; [|done].
by rewrite (stable_reload keeps_profile).
Qed.

(** X20.  [get_frame] reports an extraction failure in the error log and
  nowhere else: the log after the call is the log as extraction left it,
  followed by "get_frame failed: ..." exactly when extraction raised. *)
Theorem X20_get_frame_logs_extraction_failure s :
let ex := _extract_frame (instance (self s)) s in
errors (self (get_frame s).2)
= errors (self ex.2)
  ++ match ex.1 with
     | inl e => ["get_frame failed: " +:+ str e]
     | inr _ => []
     end.
Proof.
unfold get_frame, bind, attempt, get_self, ret, modify_self, _push_error,
  logger, bind. simpl.
destruct (_extract_frame (instance (self s)) s) as [[e|[f|]] s1]; simpl;
  by rewrite ?app_nil_r.
Qed.


End Bridge_frames.

Lemma X16_instance_changes_only_by_reconstruction_witness :
  let s := (MenuLCDBridge.__init__ "/repo" None (Sample.repo Sample.drawing_menu [])).2 in
  let os := [MenuLCDBridge.OpStep; MenuLCDBridge.OpGetFrame;
             MenuLCDBridge.OpAction MenuLCDBridge.Down; MenuLCDBridge.OpEncoder 2;
             MenuLCDBridge.OpHome; MenuLCDBridge.OpPopErrors;
             MenuLCDBridge.OpSetDisplayProfile (Some "1in3") false] in
  MenuLCDBridge.instance (MenuLCDBridge.self (MenuLCDBridge.run_ops os s).2)
  = MenuLCDBridge.VObj 7
  ∧ MenuLCDBridge._native_size (MenuLCDBridge.self (MenuLCDBridge.run_ops os s).2)
    = (128, 128).
Proof.
  intros s os.
  destruct (X16_instance_changes_only_by_reconstruction os s) as (H1 & H2 & _).
  - repeat constructor.
  - rewrite H1, H2. vm_compute. by split.
Defined.

Lemma X17_settings_change_only_by_their_setters_witness :
  let s := MenuLCDBridge.with_world (Sample.repo_without_lib Sample.drawing_menu)
             (MenuLCDBridge.__init__ "/repo" (Some "1in44")
                (Sample.repo Sample.drawing_menu [])).2 in
  let os := [MenuLCDBridge.OpReload; MenuLCDBridge.OpStep; MenuLCDBridge.OpGetFrame] in
  MenuLCDBridge.repo_path (MenuLCDBridge.self (MenuLCDBridge.run_ops os s).2) = "/repo"
  ∧ MenuLCDBridge.display_profile (MenuLCDBridge.self (MenuLCDBridge.run_ops os s).2)
    = Some "1in44".
Proof.
  intros s os.
  destruct (X17_settings_change_only_by_their_setters os s) as [H1 H2].
  rewrite H1, H2 by repeat constructor. vm_compute. by split.
Defined.

Lemma X19_set_display_profile_stores_before_reload_witness :
  let s := Sample.bridge_on (MenuLCDBridge.VObj 7)
             (Sample.repo_without_lib Sample.drawing_menu) in
  (MenuLCDBridge.set_display_profile (Some "1in3") true s).1
  = inl (BridgeError "Missing file: /repo/lib/menulcd.py")
  ∧ MenuLCDBridge.display_profile
      (MenuLCDBridge.self (MenuLCDBridge.set_display_profile (Some "1in3") true s).2)
    = Some "1in3".
Proof.
  intros s. split; [vm_compute; reflexivity|].
  apply (X19_set_display_profile_stores_before_reload (Some "1in3") true s).
  vm_compute. reflexivity.
Defined.

(** ** Bridge: snapshot *)

Section Snapshot_facts.
Import MenuLCDBridge Capture.
Local Open Scope py_scope.
Context {world : Type} `{!Host world} `{!Disk world}.
Implicit Types (s : st world).

(** X22.  A snapshot that returns has saved: the path returned is
  [snapshot_<timestamp>.png] in the output directory, the last call made
  is the save of a frame under exactly that path, and that frame is the
  one the bridge retains as its last frame. *)
Theorem X22_snapshot_saves_what_it_returns s p s' :
snapshot_png s = (inr p, s') →
∃ f x, p = snapshot_path (strftime x)
       ∧ last (calls s') = Some ("save", [VImage f; VStr p])
       ∧ _last_frame (self s') = Some f.
Proof.
unfold snapshot_png. unfold bind at 1. unfold act at 1.
destruct (mkdir SNAP_DIR (w s)) as [[e|[]] w1]; [done|].
unfold bind at 1. unfold ask at 1. cbv zeta. unfold bind at 1.
match goal with
| |- context [get_frame ?s1] =>
    destruct (get_frame_spec s1) as [H1 H2];
    destruct (get_frame s1) as [r s2]
end.
cbn [fst snd] in H1, H2. subst r.
destruct (_last_frame (self s2)) as [f|] eqn:Ef.
2: { rewrite <- H2. done. }
rewrite <- H2. unfold bind, record_call, act, ret. simpl.
destruct (save f _ (w s2)) as [[e|[]] w3]; [done|].
intros [= <- <-]. exists f, w1. simpl. split; [done|].
split; [by rewrite last_snoc|done].
Qed.

(** X23.  With no frame to save, [snapshot_png] raises "No frame to save."
  and saves nothing: once the output directory is made, the state it
  leaves is the state [get_frame] left. *)
Theorem X23_snapshot_without_frame_fails s w1 :
mkdir SNAP_DIR (w s) = (inr tt, w1) →
(get_frame (with_world w1 s)).1 = inr None →
snapshot_png s
= (inl (BridgeError "No frame to save."), (get_frame (with_world w1 s)).2).
Proof.
intros Hm Hg. unfold snapshot_png. unfold bind at 1. unfold act at 1.
rewrite Hm. unfold bind at 1. unfold ask at 1. cbv zeta. unfold bind at 1.
unfold with_world in Hg |- *.
destruct (get_frame _) as [r s2]. cbn [fst] in Hg. by subst r.
Qed.

End Snapshot_facts.

Lemma X22_snapshot_saves_what_it_returns_witness :
  let s := (MenuLCDBridge.__init__ "/repo" None (Sample.repo Sample.drawing_menu [])).2 in
  ∃ f x, "/out/snapshot_20261103_120000.png"
         = Capture.snapshot_path (Capture.strftime x)
         ∧ last (MenuLCDBridge.calls (Capture.snapshot_png s).2)
           = Some ("save", [MenuLCDBridge.VImage f;
                            MenuLCDBridge.VStr "/out/snapshot_20261103_120000.png"])
         ∧ MenuLCDBridge._last_frame (MenuLCDBridge.self (Capture.snapshot_png s).2)
           = Some f.
Proof.
  intros s.
  apply (X22_snapshot_saves_what_it_returns s "/out/snapshot_20261103_120000.png"
           (Capture.snapshot_png s).2).
  vm_compute. reflexivity.
Defined.

Lemma X23_snapshot_without_frame_fails_witness :
  let s := Sample.bridge_on MenuLCDBridge.VNone (Sample.repo [] []) in
  (Capture.snapshot_png s).1 = inl (BridgeError "No frame to save.")
  ∧ MenuLCDBridge.calls (Capture.snapshot_png s).2 = [].
Proof.
  intros s.
  rewrite (X23_snapshot_without_frame_fails s (MenuLCDBridge.w s));
    [|vm_compute; reflexivity|vm_compute; reflexivity].
  split; [reflexivity|]. vm_compute. reflexivity.
Defined.

(** ** Controller: the event filter *)

Section Filter_facts.
Import MenuLCDBridge MenuController.
Local Open Scope py_scope.
Context {world : Type} `{!Host world}.
Implicit Types (s : st world).

(** X24.  [eventFilter] never raises, whatever the bridge does with the
  action it runs; and an event that no branch takes (another event type,
  no key or another key, a wheel delta that is zero or cannot be read)
  is reported unhandled with nothing printed and nothing changed. *)
Theorem X24_event_filter_never_raises ev s :
(∃ v, (eventFilter ev s).1 = inr v)
∧ (ignored ev = true → eventFilter ev s = (inr (Verdict false false), s)).
Proof.
split.
- unfold eventFilter. unfold bind at 1. unfold attempt.
  destruct (filter_body ev s) as [[e|[v|]] s1]; by eexists.
- intros Hi. unfold eventFilter. unfold bind at 1. unfold attempt.
  assert (filter_body ev s = (inr None, s)) as ->; [|done].
  destruct ev as [[k|]|[k|]|[e|d]|]; try done.
  + unfold filter_body. simpl in Hi. apply negb_true_iff in Hi. by rewrite Hi.
  + destruct k; try discriminate. done.
  + unfold filter_body. cbv zeta. simpl in Hi.
    apply bool_decide_eq_true_1 in Hi. subst d. done.
Qed.

(** X25.  A press of a navigation key runs the matching bridge action once,
  after printing the key's trace line; the event is reported handled
  exactly when the action returned, and when the action raised the error
  is printed instead of being passed on. *)
Theorem X25_key_press_runs_its_action k (m : M world unit) s :
key_action k = Some m →
eventFilter (KeyPress (Some k)) s
= match m (St (self s) (w s) (stdout s ++ [key_line k]) (logged s) (calls s)) with
  | (inr _, s2) => (inr (Verdict true false), s2)
  | (inl _, s2) =>
      (inr (Verdict false false),
       St (self s2) (w s2) (stdout s2 ++ ["[KEY][ERR] eventFilter: {e}"])
          (logged s2) (calls s2))
  end.
Proof.
intros Hk. unfold eventFilter. unfold bind at 1. unfold attempt.
destruct k; simpl in Hk; try discriminate; injection Hk as <-;
  unfold filter_body; unfold bind at 1; unfold print at 1; unfold bind at 1;
  cbn [key_line];
  match goal with
  | |- context [?act (St ?a ?b ?c ?d ?e)] =>
      destruct (act (St a b c d e)) as [[err|[]] s2]
  end; reflexivity.
Qed.

(** X26.  Only the direction of a wheel turn counts: a wheel event with a
  non-zero delta is treated exactly like one with delta +1 or -1 of the
  same sign, and a delta that cannot be read like delta zero. *)
Theorem X26_wheel_magnitude_is_ignored (d : Z) (e : exn) s :
eventFilter (Wheel (inr d)) s = eventFilter (Wheel (inr (Z.sgn d))) s
∧ eventFilter (Wheel (inl e)) s = eventFilter (Wheel (inr 0)) s.
Proof.
split; [|done].
unfold eventFilter, filter_body. cbv zeta.
destruct (Z.lt_trichotomy d 0) as [Hd|[->|Hd]]; [| done |].
- rewrite (Z.sgn_neg d Hd).
  rewrite (bool_decide_eq_true_2 (d ≠ 0)) by lia.
  rewrite (bool_decide_eq_false_2 (d > 0)) by lia. done.
- rewrite (Z.sgn_pos d Hd).
  rewrite (bool_decide_eq_true_2 (d ≠ 0)) by lia.
  rewrite (bool_decide_eq_true_2 (d > 0)) by lia. done.
Qed.

End Filter_facts.

Lemma X25_key_press_runs_its_action_witness :
  let s := Sample.bridge_on (MenuLCDBridge.VObj 7)
             (Sample.repo Sample.menu_with_generic_up []) in
  MenuController.eventFilter (MenuController.KeyPress (Some MenuController.Key_Up)) s
  = (inr (MenuController.Verdict true false),
     (MenuLCDBridge.action_up
        (MenuLCDBridge.St (MenuLCDBridge.self s) (MenuLCDBridge.w s)
           ["[KEY] UP -> action_up()"] [] [])).2).
Proof.
  intros s.
  rewrite (X25_key_press_runs_its_action MenuController.Key_Up
             MenuLCDBridge.action_up s); [|reflexivity].
  vm_compute. reflexivity.
Defined.
